(** * Brothel Hacker: platform adapters, approval workflow and cron publisher

    A shallow embedding of [adapters.js] (the adapter registry and the
    dispatch facade [postToPlatform]) and of the approval, scheduling,
    monitoring, calendar and adapter routes of [server.js], with the
    properties the specification states about them and further properties
    of the code.

    Conventions of the embedding:
    - A JavaScript [async] function is a computation in the monad [M]: it
      either returns a value or throws an [Error], and it may call the axios
      client [http]; every request it sends is appended to a log, and the
      reply of the network is given by an oracle.
    - JavaScript strings are Rocq strings, one character per code unit; the
      code units are those up to U+00FF.
    - JSON documents (request and response bodies) are values of [json]. *)

From Stdlib Require Import ZArith Ascii String DecimalString List Bool Lia.
From Stdlib Require QArith.
From stdpp Require Import base option list gmap strings.

Set Warnings "-register-all".
Local Open Scope string_scope.
Local Open Scope list_scope.
Local Open Scope nat_scope.

(** ** JavaScript values *)

Module JS.

(** JSON documents, with [JUndef] for the [undefined] a script may put in an
    object before it is serialised (a parsed document never holds it).
    Numbers are exact rationals. *)
Inductive json : Type :=
  | JUndef
  | JNull
  | JBool (b : bool)
  | JNum (q : QArith_base.Q)
  | JStr (s : string)
  | JArr (l : list json)
  | JObj (fields : list (string * json)).

Definition JInt (z : Z) : json := JNum (QArith_base.Qmake z 1).

(** ToBoolean. *)
Definition truthy (j : json) : bool :=
  match j with
  | JUndef | JNull => false
  | JBool b => b
  | JNum q => negb (Z.eqb (QArith_base.Qnum q) 0)
  | JStr s => negb (String.eqb s "")
  | JArr _ | JObj _ => true
  end.

(** Own property of an object literal, by name. *)
Fixpoint assoc {A} (k : string) (l : list (string * A)) : option A :=
  match l with
  | [] => None
  | (k', v) :: l' => if String.eqb k k' then Some v else assoc k l'
  end.

(** [j[k]] for a [j] that is neither [null] nor [undefined]; the keys read
    by this program ("id", "data", "messages", "x-restli-id") are own
    properties of objects only. *)
Definition jget (j : json) (k : string) : json :=
  match j with
  | JObj fs => default JUndef (assoc k fs)
  | _ => JUndef
  end.

(** [j?.[k]] and [j?.k]. *)
Definition jopt (j : json) (k : string) : json :=
  match j with
  | JUndef | JNull => JUndef
  | _ => jget j k
  end.

(** [j?.[0]]: first element of an array, first character of a string. *)
Definition jopt0 (j : json) : json :=
  match j with
  | JArr (x :: _) => x
  | JStr (String c _) => JStr (String c "")
  | JObj fs => default JUndef (assoc "0" fs)
  | _ => JUndef
  end.

(** [a || b]. *)
Definition jor (a b : json) : json := if truthy a then a else b.

(** A string-valued property that may be absent: [None] is [undefined]. *)
Definition truthy_str (v : option string) : bool :=
  match v with
  | Some s => negb (String.eqb s "")
  | None => false
  end.

(** [v || d] for a string-valued [v]. *)
Definition str_or (v : option string) (d : string) : string :=
  match v with
  | Some s => if String.eqb s "" then d else s
  | None => d
  end.

(** [s.slice(0, n)]. *)
Definition slice0 (n : nat) (s : string) : string := substring 0 n s.

(** [v || undefined] as a JSON field. *)
Definition jstr_or_undef (v : option string) : json :=
  if truthy_str v then JStr (default "" v) else JUndef.

(** *** Sparse arrays

    An array is the list of its slots up to [length]; a hole is [None].
    Valid array indices are the integers in [0, 2^32 - 2]. *)
Definition max_index : Z := (2 ^ 32 - 2)%Z.

(** [a[i] = x] for an array index [i]: inside the array the slot is
    replaced, beyond its end the array grows and the slots in between are
    holes. *)
Definition array_set {A} (a : list (option A)) (i : nat) (x : A) : list (option A) :=
  if decide (i < length a)
  then <[i := Some x]> a
  else a ++ replicate (i - length a) None ++ [Some x].

(** [a.includes(undefined)] when every stored element is an object: holes
    are read as [undefined]. *)
Definition includes_undefined {A} (a : list (option A)) : bool :=
  existsb (fun slot => match slot with None => true | Some _ => false end) a.

End JS.

(** ** adapters.js *)

Module Adapters.
Import JS.

(** *** Errors, requests and the monad of adapter calls *)

(** A thrown [Error]: its [message] and the optional [status] that [err]
    attaches. Errors of the runtime (TypeError) and of axios carry a message
    whose wording is the engine's (here Node's, V8); they are built with
    [type_error]. *)
Record Error := mkError { e_message : string; e_status : option Z }.

Definition type_error (m : string) : Error := mkError m None.

(** What [http.post(url, data, config)] is called with. A form body is kept
    as its list of fields ([URLSearchParams]), not as its wire encoding. *)
Inductive body : Type :=
  | BNull
  | BJson (j : json)
  | BForm (fields : list (string * string)).

Record Request := mkRequest {
  q_url : string;
  q_data : body;
  q_params : list (string * string);
  q_headers : list (string * string)
}.

(** The axios response fields the adapters read. *)
Record Response := mkResponse {
  r_status : Z;
  r_data : json;
  r_headers : json
}.

(** The network: given the requests sent so far and a new request, axios
    either rejects with an error or resolves to a response. *)
Definition Net : Type := list Request -> Request -> Error + Response.

(** An adapter computation reads the network oracle and threads the log of
    the requests sent (oldest first); it throws or returns. *)
Definition M (A : Type) : Type := Net -> list Request -> (Error + A) * list Request.

Definition ret {A} (x : A) : M A := fun _ log => (inr x, log).

Definition throw {A} (e : Error) : M A := fun _ log => (inl e, log).

Definition bind {A B} (m : M A) (k : A -> M B) : M B :=
  fun net log =>
    match m net log with
    | (inl e, log') => (inl e, log')
    | (inr x, log') => k x net log'
    end.

Notation "x <- m ;; k" := (bind m (fun x => k))
  (at level 100, m at next level, right associativity).

(** [await http.post(url, data, config)] with [http = axios.create(...)]. *)
Definition http_post (url : string) (data : body)
    (params headers : list (string * string)) : M Response :=
  fun net log =>
    let q := mkRequest url data params headers in
    match net log q with
    | inl e => (inl e, log ++ [q])
    | inr r => (inr r, log ++ [q])
    end.

(** [const err = (m, status=400) => { const e = new Error(m); e.status = status; throw e }] *)
Definition err {A} (m : string) (status : Z) : M A :=
  throw (mkError m (Some status)).

(** Objects whose properties are strings, read as [o?.[k]]. *)
Class Props (O : Type) := prop : O -> string -> option string.

(** [tokens] and [account]: a string-to-string object, or [undefined]. *)
#[export] Instance props_obj : Props (option (gmap string string)) :=
  fun o k => o ≫= (fun m => m !! k).

(** [const reqd = (o,k) => { if(!o?.[k]) err(`missing_${k}`); return o[k] }] *)
Definition reqd {O} `{Props O} (o : O) (k : string) : M string :=
  if truthy_str (prop o k)
  then ret (default "" (prop o k))
  else err ("missing_" +:+ k) 400.

(** [o.k] for a response field [o]: a TypeError on [null] and [undefined]. *)
Definition jdot (o : json) (k : string) : M json :=
  match o with
  | JUndef =>
      throw (type_error ("Cannot read properties of undefined (reading '" +:+ k +:+ "')"))
  | JNull =>
      throw (type_error ("Cannot read properties of null (reading '" +:+ k +:+ "')"))
  | _ => ret (jget o k)
  end.

(** *** The normalized input

    [{text, mediaUrl?, linkUrl?, alt?, hashtags?:[], tokens:{...}, account:{...}}],
    and the further fields some adapters read ([to], [title], [recipients]).
    An absent field is [None]; a field that is there holds a string (a list
    of strings for [hashtags] and [recipients], an object of strings for
    [tokens] and [account]). No key that the adapters read is a property of
    [Object.prototype], so a key that is not in the object reads as
    [undefined]. *)
Record NormalizedPost := mkPost {
  text : option string;
  mediaUrl : option string;
  linkUrl : option string;
  alt : option string;
  hashtags : option (list string);
  tokens : option (gmap string string);
  account : option (gmap string string);
  to : option string;
  title : option string;
  recipients : option (list string)
}.

#[export] Instance props_input : Props NormalizedPost :=
  fun i k =>
    if String.eqb k "text" then text i
    else if String.eqb k "mediaUrl" then mediaUrl i
    else if String.eqb k "linkUrl" then linkUrl i
    else if String.eqb k "alt" then alt i
    else if String.eqb k "to" then to i
    else if String.eqb k "title" then title i
    else None.

(** What an adapter call resolves to: an object built by the adapter, or,
    for the functions inherited from [Object.prototype], the input itself
    or a string. *)
Inductive Result : Type :=
  | RObj (fields : list (string * json))
  | RInput (i : NormalizedPost)
  | RStr (s : string).

Definition bearer (t : string) : list (string * string) :=
  [("Authorization", "Bearer " +:+ t)].

Definition graph : string := "https://graph.facebook.com/v19.0/".

(** *** The adapters *)

Definition Adapter : Type := NormalizedPost -> M Result.

Definition instagramPost : Adapter := fun input =>
  access_token <- reqd (tokens input) "IG_TOKEN" ;;
  ig_user_id <- reqd (account input) "ig_user_id" ;;
  let caption := str_or (text input) "" in
  let mediaUrl := mediaUrl input in
  if negb (truthy_str mediaUrl) then err "instagram_requires_mediaUrl" 400 else
  media <- http_post (graph +:+ ig_user_id +:+ "/media")
             (BJson (JObj [("image_url", JStr (default "" mediaUrl)); ("caption", JStr caption)]))
             [("access_token", access_token)] [] ;;
  creation_id <- jdot (r_data media) "id" ;;
  pub <- http_post (graph +:+ ig_user_id +:+ "/media_publish")
           (BJson (JObj [("creation_id", creation_id)]))
           [("access_token", access_token)] [] ;;
  id <- jdot (r_data pub) "id" ;;
  ret (RObj [("id", id)]).

Definition facebookPost : Adapter := fun input =>
  token <- reqd (tokens input) "FB_PAGE_TOKEN" ;;
  page_id <- reqd (account input) "page_id" ;;
  if truthy_str (mediaUrl input) then
    r <- http_post (graph +:+ page_id +:+ "/photos") BNull
           [("url", default "" (mediaUrl input)); ("caption", str_or (text input) "");
            ("access_token", token)] [] ;;
    id <- jdot (r_data r) "id" ;;
    ret (RObj [("id", id)])
  else
    r <- http_post (graph +:+ page_id +:+ "/feed") BNull
           [("message", str_or (text input) ""); ("access_token", token)] [] ;;
    id <- jdot (r_data r) "id" ;;
    ret (RObj [("id", id)]).

Definition twitterPost : Adapter := fun input =>
  bearer_token <- reqd (tokens input) "X_BEARER" ;;
  r <- http_post "https://api.twitter.com/2/tweets"
         (BJson (JObj [("text", JStr (str_or (slice0 280 <$> text input) ""))]))
         [] (bearer bearer_token) ;;
  ret (RObj [("id", jopt (jopt (r_data r) "data") "id")]).

Definition tiktokPost : Adapter := fun input =>
  token <- reqd (tokens input) "TT_ACCESS_TOKEN" ;;
  advertiser_id <- reqd (account input) "advertiser_id" ;;
  video_url <- reqd input "mediaUrl" ;;
  r <- http_post "https://business-api.tiktok.com/open_api/v1.3/file/video/ad/upload/"
         (BJson (JObj [("advertiser_id", JStr advertiser_id); ("video_url", JStr video_url)]))
         [] [("Access-Token", token)] ;;
  ret (RObj [("upload_id", jor (jopt (jopt (r_data r) "data") "id") (JStr "uploaded"))]).

Definition linkedinPost : Adapter := fun input =>
  token <- reqd (tokens input) "LI_TOKEN" ;;
  urn <- reqd (account input) "author_urn" ;;
  let has_media := truthy_str (mediaUrl input) in
  let payload :=
    JObj [("author", JStr urn); ("lifecycleState", JStr "PUBLISHED");
          ("specificContent", JObj [("com.linkedin.ugc.ShareContent", JObj [
             ("shareCommentary", JObj [("text", JStr (str_or (text input) ""))]);
             ("shareMediaCategory", JStr (if has_media then "IMAGE" else "NONE"));
             ("media", if has_media
                       then JArr [JObj [("status", JStr "READY");
                                        ("originalUrl", JStr (default "" (mediaUrl input)));
                                        ("title", JObj [("text", JStr (str_or (alt input) "Photo"))])]]
                       else JUndef)])]);
          ("visibility", JObj [("com.linkedin.ugc.MemberNetworkVisibility", JStr "PUBLIC")])] in
  r <- http_post "https://api.linkedin.com/v2/ugcPosts" (BJson payload) [] (bearer token) ;;
  ret (RObj [("id", jor (jget (r_headers r) "x-restli-id") (JStr "ok"))]).

Definition snapchatPost : Adapter := fun _input =>
  err "snapchat_posting_requires_marketing_api_and_creatives" 501.

Definition pinterestPost : Adapter := fun input =>
  token <- reqd (tokens input) "PIN_TOKEN" ;;
  board_id <- reqd (account input) "board_id" ;;
  let link := jstr_or_undef (linkUrl input) in
  let title := str_or (slice0 97 <$> text input) " " in
  let alt_text := jstr_or_undef (alt input) in
  url <- reqd input "mediaUrl" ;;
  r <- http_post "https://api.pinterest.com/v5/pins"
         (BJson (JObj [("link", link); ("title", JStr title); ("alt_text", alt_text);
                       ("board_id", JStr board_id);
                       ("media_source", JObj [("source_type", JStr "image_url"); ("url", JStr url)])]))
         [] (bearer token) ;;
  ret (RObj [("id", jopt (r_data r) "id")]).

Definition redditPost : Adapter := fun input =>
  token <- reqd (tokens input) "REDDIT_TOKEN" ;;
  sr <- reqd (account input) "subreddit" ;;
  let has_media := truthy_str (mediaUrl input) in
  r <- http_post "https://oauth.reddit.com/api/submit"
         (BForm [("sr", sr); ("kind", if has_media then "image" else "self");
                 ("title", slice0 290 (str_or (text input) ""));
                 ("url", str_or (mediaUrl input) "");
                 ("text", if has_media then "" else str_or (text input) "")])
         [] (bearer token ++ [("Content-Type", "application/x-www-form-urlencoded")]) ;;
  ret (RObj [("status", JInt (r_status r))]).

Definition tumblrPost : Adapter := fun input =>
  err "tumblr_v2_posting_require_oauth1_flow" 501.

Definition youtubePost : Adapter := fun _input =>
  err "use_resumable_upload_to_youtube_data_api_v3" 501.

Definition whatsappSend : Adapter := fun input =>
  token <- reqd (tokens input) "WAPP_TOKEN" ;;
  phone_id <- reqd (account input) "phone_number_id" ;;
  to <- reqd input "to" ;;
  r <- http_post (graph +:+ phone_id +:+ "/messages")
         (BJson (JObj [("messaging_product", JStr "whatsapp"); ("to", JStr to);
                       ("type", JStr "text");
                       ("text", JObj [("body", JStr (str_or (text input) ""))])]))
         [] (bearer token) ;;
  ret (RObj [("id", jopt (jopt0 (jopt (r_data r) "messages")) "id")]).

Definition discordPost : Adapter := fun input =>
  url <- reqd (tokens input) "DISCORD_WEBHOOK" ;;
  r <- http_post url
         (BJson (JObj [("content", JStr (str_or (text input) ""));
                       ("embeds", if truthy_str (mediaUrl input)
                                  then JArr [JObj [("image", JObj [("url", JStr (default "" (mediaUrl input)))])]]
                                  else JUndef)]))
         [] [] ;;
  ret (RObj [("status", JInt (r_status r))]).

Definition twitchPost : Adapter := fun _input =>
  err "twitch_posting_not_supported; consider chat bot or channel points integration" 501.

Definition clubhousePost : Adapter := fun _input => err "no_public_api" 501.

Definition vimeoPost : Adapter := fun _input => err "use_vimeo_uploads_api_oauth2" 501.

Definition mediumPost : Adapter := fun input =>
  token <- reqd (tokens input) "MEDIUM_TOKEN" ;;
  userId <- reqd (account input) "user_id" ;;
  r <- http_post ("https://api.medium.com/v1/users/" +:+ userId +:+ "/posts")
         (BJson (JObj [("title", JStr (str_or (title input) "Untitled"));
                       ("contentFormat", JStr "markdown");
                       ("content", JStr (str_or (text input) ""));
                       ("publishStatus", JStr "public")]))
         [] (bearer token) ;;
  ret (RObj [("id", jopt (jopt (r_data r) "data") "id")]).

Definition quoraPost : Adapter := fun _input => err "no_public_content_api" 501.

Definition onlyfansPost : Adapter := fun _input =>
  err "no_public_api_use_official_partner_or_manual_export" 501.

Definition pornhubPost : Adapter := fun _input => err "partner_api_required" 501.

Definition telegramPost : Adapter := fun input =>
  token <- reqd (tokens input) "TELEGRAM_BOT_TOKEN" ;;
  chat_id <- reqd (account input) "chat_id" ;;
  if truthy_str (mediaUrl input) then
    r <- http_post ("https://api.telegram.org/bot" +:+ token +:+ "/sendPhoto")
           (BJson (JObj [("chat_id", JStr chat_id);
                         ("photo", JStr (default "" (mediaUrl input)));
                         ("caption", JStr (str_or (text input) ""))]))
           [] [] ;;
    ret (RObj [("id", jopt (jopt (r_data r) "result") "message_id")])
  else
    r <- http_post ("https://api.telegram.org/bot" +:+ token +:+ "/sendMessage")
           (BJson (JObj [("chat_id", JStr chat_id); ("text", JStr (str_or (text input) ""))]))
           [] [] ;;
    ret (RObj [("id", jopt (jopt (r_data r) "result") "message_id")]).

Definition wechatPost : Adapter := fun _input =>
  err "requires_wechat_official_account_access_token_and_message_send_api" 501.

Definition linePost : Adapter := fun input =>
  token <- reqd (tokens input) "LINE_CHANNEL_TOKEN" ;;
  to <- reqd input "to" ;;
  r <- http_post "https://api.line.me/v2/bot/message/push"
         (BJson (JObj [("to", JStr to);
                       ("messages", JArr [JObj [("type", JStr "text");
                                                ("text", JStr (str_or (text input) ""))]])]))
         [] (bearer token) ;;
  ret (RObj [("status", JInt (r_status r))]).

Definition viberPost : Adapter := fun input =>
  token <- reqd (tokens input) "VIBER_TOKEN" ;;
  r <- http_post "https://chatapi.viber.com/pa/broadcast_message"
         (BJson (JObj [("broadcast_list", JArr (JStr <$> default [] (recipients input)));
                       ("type", JStr "text");
                       ("text", JStr (str_or (text input) ""))]))
         [] [("X-Viber-Auth-Token", token)] ;;
  ret (RObj [("status", JInt (r_status r))]).

(** [export const adapters = { instagram: instagramPost, ... }] *)
Definition adapters_literal : list (string * Adapter) :=
  [ ("instagram", instagramPost);
    ("facebook", facebookPost);
    ("twitter", twitterPost);
    ("tiktok", tiktokPost);
    ("linkedin", linkedinPost);
    ("snapchat", snapchatPost);
    ("pinterest", pinterestPost);
    ("reddit", redditPost);
    ("tumblr", tumblrPost);
    ("youtube", youtubePost);
    ("whatsapp", whatsappSend);
    ("discord", discordPost);
    ("twitch", twitchPost);
    ("clubhouse", clubhousePost);
    ("vimeo", vimeoPost);
    ("medium", mediumPost);
    ("quora", quoraPost);
    ("onlyfans", onlyfansPost);
    ("pornhub", pornhubPost);
    ("telegram", telegramPost);
    ("wechat", wechatPost);
    ("line", linePost);
    ("viber", viberPost) ].

Definition adapters : gmap string Adapter := list_to_map adapters_literal.

(** [adapters] is an object literal, so a property that is not its own is
    looked up in [Object.prototype]. Each inherited member is given by what
    the call [fn(input)] does with it: [fn] is called without a receiver
    ([this] is [undefined], the module being strict code).
    - [constructor] is [Object]: [Object(input)] returns [input].
    - [toString] returns the tag of [undefined].
    - [__proto__] is [Object.prototype] itself, an object that is not
      callable.
    - [toLocaleString] tests [this] itself and throws.
    - the other methods convert [this] to an object first and throw. *)
Definition not_callable : Adapter := fun _input =>
  throw (type_error "fn is not a function").

Definition no_receiver : Adapter := fun _input =>
  throw (type_error "Cannot convert undefined or null to object").

Definition toLocaleString_no_receiver : Adapter := fun _input =>
  throw (type_error "Object.prototype.toLocaleString called on null or undefined").

Definition object_prototype_literal : list (string * Adapter) :=
  [ ("constructor", fun input => ret (RInput input));
    ("__defineGetter__", no_receiver);
    ("__defineSetter__", no_receiver);
    ("hasOwnProperty", no_receiver);
    ("__lookupGetter__", no_receiver);
    ("__lookupSetter__", no_receiver);
    ("isPrototypeOf", no_receiver);
    ("propertyIsEnumerable", no_receiver);
    ("toString", fun _input => ret (RStr "[object Undefined]"));
    ("valueOf", no_receiver);
    ("__proto__", not_callable);
    ("toLocaleString", toLocaleString_no_receiver) ].

Definition object_prototype : gmap string Adapter :=
  list_to_map object_prototype_literal.

(** [adapters[platform]]; [None] is [undefined]. *)
Definition adapters_get (platform : string) : option Adapter :=
  match adapters !! platform with
  | Some fn => Some fn
  | None => object_prototype !! platform
  end.

Record Capability := mkCap {
  post : bool;
  media : bool;
  analytics : bool;
  notes : string
}.

(** [export const capabilities = Object.freeze({ ... })] *)
Definition capabilities_literal : list (string * Capability) :=
  [ ("instagram", mkCap true true false "Graph API media_publish (image/video)");
    ("facebook", mkCap true true true "Pages feed/photos");
    ("twitter", mkCap true false false "Requires user-context OAuth2; 280 chars");
    ("tiktok", mkCap true true false "Business Content Posting; advertiser scope");
    ("linkedin", mkCap true true false "UGC posts; needs author URN");
    ("snapchat", mkCap false true false "Ads only via Marketing API");
    ("pinterest", mkCap true true false "v5 Pins API");
    ("reddit", mkCap true true false "/api/submit OAuth");
    ("tumblr", mkCap false true false "OAuth1; implement if needed");
    ("youtube", mkCap false true true "Resumable uploads; Data API v3");
    ("whatsapp", mkCap true true false "Business Cloud API");
    ("discord", mkCap true true false "Webhooks or bot");
    ("twitch", mkCap false false true "Use chat bot/Helix for markers");
    ("clubhouse", mkCap false false false "No public API");
    ("vimeo", mkCap false true true "Uploads via OAuth2");
    ("medium", mkCap true false false "Markdown posts");
    ("quora", mkCap false false false "No public content API");
    ("onlyfans", mkCap false true false "Partner/official only");
    ("pornhub", mkCap false true false "Partner API only");
    ("telegram", mkCap true true false "Bot API");
    ("wechat", mkCap false true false "Official Account API");
    ("line", mkCap true true false "Messaging API");
    ("viber", mkCap true false false "Public Accounts API") ].

Definition capabilities : gmap string Capability := list_to_map capabilities_literal.

(** [export async function postToPlatform(platform, input)] *)
Definition postToPlatform (platform : string) (input : NormalizedPost) : M Result :=
  match adapters_get platform with
  | None => err "unsupported_platform" 404
  | Some fn => fn input
  end.

(** A network on which every request times out. *)
Definition offline : Net := fun _ _ => inl (type_error "timeout of 12000ms exceeded").

(** A network that gives the same answer to every request. *)
Definition replying (r : Response) : Net := fun _ _ => inr r.

(** An input with a text only, as the cron publisher builds it. *)
Definition bare_post (t : string) : NormalizedPost :=
  mkPost (Some t) None None None None (Some ∅) (Some ∅) None None None.

(** *** Keys each adapter requires

    The [tokens] and [account] keys an adapter reads through [reqd], in the
    order of the calls. *)
Inductive Source := Tokens | Account.

Definition credentials (src : Source) (input : NormalizedPost) : option (gmap string string) :=
  match src with
  | Tokens => tokens input
  | Account => account input
  end.

Definition required_keys (platform : string) : list (Source * string) :=
  if String.eqb platform "instagram" then [(Tokens, "IG_TOKEN"); (Account, "ig_user_id")]
  else if String.eqb platform "facebook" then [(Tokens, "FB_PAGE_TOKEN"); (Account, "page_id")]
  else if String.eqb platform "twitter" then [(Tokens, "X_BEARER")]
  else if String.eqb platform "tiktok" then [(Tokens, "TT_ACCESS_TOKEN"); (Account, "advertiser_id")]
  else if String.eqb platform "linkedin" then [(Tokens, "LI_TOKEN"); (Account, "author_urn")]
  else if String.eqb platform "pinterest" then [(Tokens, "PIN_TOKEN"); (Account, "board_id")]
  else if String.eqb platform "reddit" then [(Tokens, "REDDIT_TOKEN"); (Account, "subreddit")]
  else if String.eqb platform "whatsapp" then [(Tokens, "WAPP_TOKEN"); (Account, "phone_number_id")]
  else if String.eqb platform "discord" then [(Tokens, "DISCORD_WEBHOOK")]
  else if String.eqb platform "medium" then [(Tokens, "MEDIUM_TOKEN"); (Account, "user_id")]
  else if String.eqb platform "telegram" then [(Tokens, "TELEGRAM_BOT_TOKEN"); (Account, "chat_id")]
  else if String.eqb platform "line" then [(Tokens, "LINE_CHANNEL_TOKEN")]
  else if String.eqb platform "viber" then [(Tokens, "VIBER_TOKEN")]
  else [].

(** The platforms whose capability record says [post:false]. *)
Definition post_false_platforms : list string :=
  ["snapchat"; "tumblr"; "youtube"; "twitch"; "clubhouse"; "vimeo"; "quora";
   "onlyfans"; "pornhub"; "wechat"].

(** The first required key, in the order of the [reqd] calls, whose value is
    absent or empty. *)
Fixpoint first_falsy (ks : list (Source * string)) (input : NormalizedPost) : option string :=
  match ks with
  | [] => None
  | (src, k) :: ks' =>
      if truthy_str (prop (credentials src input) k) then first_falsy ks' input else Some k
  end.

(** *** Properties of the registry *)

Example snapchat_501 :
  postToPlatform "snapchat" (bare_post "hi") offline [] =
  (inl (mkError "snapchat_posting_requires_marketing_api_and_creatives" (Some 501%Z)), []).
Proof. vm_compute. reflexivity. Qed.

Example telegram_no_token :
  postToPlatform "telegram" (bare_post "hi") offline [] =
  (inl (mkError "missing_TELEGRAM_BOT_TOKEN" (Some 400%Z)), []).
Proof. vm_compute. reflexivity. Qed.

Example myspace_404 :
  postToPlatform "myspace" (bare_post "hi") offline [] =
  (inl (mkError "unsupported_platform" (Some 404%Z)), []).
Proof. vm_compute. reflexivity. Qed.

Example constructor_echo :
  postToPlatform "constructor" (bare_post "hi") offline [] = (inr (RInput (bare_post "hi")), []).
Proof. vm_compute. reflexivity. Qed.

Lemma adapters_keys_NoDup : NoDup (adapters_literal.*1).
Proof. apply (bool_decide_unpack _). vm_compute. exact I. Qed.

Lemma capabilities_keys_NoDup : NoDup (capabilities_literal.*1).
Proof. apply (bool_decide_unpack _). vm_compute. exact I. Qed.

Lemma adapters_lookup p fn : adapters !! p = Some fn ↔ (p, fn) ∈ adapters_literal.
Proof. symmetry. apply elem_of_list_to_map, adapters_keys_NoDup. Qed.

Lemma capabilities_lookup p c : capabilities !! p = Some c ↔ (p, c) ∈ capabilities_literal.
Proof. symmetry. apply elem_of_list_to_map, capabilities_keys_NoDup. Qed.

(** Split a membership in a literal table into one goal per entry. *)
Ltac table_cases H :=
  repeat (apply elem_of_cons in H as [H | H]; [injection H as -> -> | ]);
  [ .. | by apply elem_of_nil in H ].

(** C10: [adapters] and [capabilities] have the same 23 keys: a platform has
    a registered adapter exactly when it has a capability record. *)
Theorem adapters_capabilities_same_keys :
  (∀ p : string, is_Some (adapters !! p) ↔ is_Some (capabilities !! p))
  ∧ dom adapters = dom capabilities
  ∧ size adapters = 23
  ∧ size capabilities = 23.
Proof.
  assert (Hdom : dom adapters = dom capabilities).
  { unfold adapters, capabilities. rewrite !dom_list_to_map_L. reflexivity. }
  split_and!.
  - intros p. rewrite <- !elem_of_dom, Hdom. reflexivity.
  - exact Hdom.
  - unfold adapters. rewrite <- size_dom, dom_list_to_map_L.
    rewrite size_list_to_set by apply adapters_keys_NoDup. reflexivity.
  - unfold capabilities. rewrite <- size_dom, dom_list_to_map_L.
    rewrite size_list_to_set by apply capabilities_keys_NoDup. reflexivity.
Qed.

(** The capability records with [post:false] are those of
    [post_false_platforms], in the order of the table. *)
Lemma post_false_platforms_are_listed :
  (filter (λ kv, post kv.2 = false) capabilities_literal).*1 = post_false_platforms.
Proof. reflexivity. Qed.

(** C5: the adapter of a platform whose capability record has [post:false]
    throws an error with status 501 on every input, and sends no request:
    the log of requests is left as it was. The same holds when the adapter
    is reached through [postToPlatform]. *)
Theorem post_false_adapter_not_supported
    (p : string) (c : Capability) (input : NormalizedPost) (net : Net) (log : list Request) :
  capabilities !! p = Some c →
  post c = false →
  p ∈ post_false_platforms
  ∧ ∃ fn reason,
      adapters !! p = Some fn
      ∧ fn input net log = (inl (mkError reason (Some 501%Z)), log)
      ∧ postToPlatform p input net log = (inl (mkError reason (Some 501%Z)), log).
Proof.
  intros Hc Hpost. apply capabilities_lookup in Hc.
  table_cases Hc; simpl in Hpost; try discriminate Hpost;
    (split; [ unfold post_false_platforms; set_solver | ]);
    match goal with
    | |- ∃ fn reason, adapters !! ?p = _ ∧ _ =>
        let r := eval vm_compute in (adapters !! p) in
        match r with Some ?f => exists f end
    end;
    eexists; (split; [ vm_compute; reflexivity | split; reflexivity ]).
Qed.

Lemma post_false_adapter_not_supported_witness :
  "snapchat" ∈ post_false_platforms
  ∧ ∃ fn reason,
      adapters !! "snapchat" = Some fn
      ∧ fn (bare_post "hi") offline [] = (inl (mkError reason (Some 501%Z)), [])
      ∧ postToPlatform "snapchat" (bare_post "hi") offline [] =
        (inl (mkError reason (Some 501%Z)), []).
Proof.
  apply (post_false_adapter_not_supported "snapchat"
           (mkCap false true false "Ads only via Marketing API")).
  - vm_compute. reflexivity.
  - reflexivity.
Defined.

(** A platform name that is neither a key of [adapters] nor a property of
    [Object.prototype] is rejected with [unsupported_platform] and status
    404, and no request is sent. *)
Lemma postToPlatform_unknown (p : string) (input : NormalizedPost) (net : Net) (log : list Request) :
  adapters !! p = None →
  object_prototype !! p = None →
  postToPlatform p input net log = (inl (mkError "unsupported_platform" (Some 404%Z)), log).
Proof.
  intros Ha Ho. unfold postToPlatform, adapters_get. rewrite Ha, Ho. reflexivity.
Qed.

(** C6 (what the code does at ["constructor"]): the name is not a key of
    [adapters], yet [adapters["constructor"]] is the inherited [Object]
    function; the guard [if(!fn)] does not fire, and the call resolves to the
    input instead of failing with [unsupported_platform]. *)
Theorem postToPlatform_constructor_resolves
    (input : NormalizedPost) (net : Net) (log : list Request) :
  adapters !! "constructor" = None
  ∧ postToPlatform "constructor" input net log = (inr (RInput input), log).
Proof. split; [ vm_compute; reflexivity | reflexivity ]. Qed.

(** *** Missing credentials *)

Lemma reqd_falsy {O} `{Props O} (o : O) (k : string) (net : Net) (log : list Request) :
  truthy_str (prop o k) = false →
  reqd o k net log = (inl (mkError ("missing_" +:+ k) (Some 400%Z)), log).
Proof. intros E. unfold reqd. rewrite E. reflexivity. Qed.

Lemma reqd_truthy {O} `{Props O} (o : O) (k : string) (net : Net) (log : list Request) :
  truthy_str (prop o k) = true →
  reqd o k net log = (inr (default "" (prop o k)), log).
Proof. intros E. unfold reqd. rewrite E. reflexivity. Qed.

Lemma first_falsy_Some ks input k :
  first_falsy ks input = Some k →
  ∃ src, (src, k) ∈ ks ∧ truthy_str (prop (credentials src input) k) = false.
Proof.
  induction ks as [ | [src' k'] ks IH ]; simpl; [ discriminate | ].
  destruct (truthy_str (prop (credentials src' input) k')) eqn:E.
  - intros Hk. destruct (IH Hk) as (src & Hin & Hf). exists src. split; [ by right | done ].
  - intros [= <-]. exists src'. split; [ by left | done ].
Qed.

Lemma first_falsy_exists ks input src k :
  (src, k) ∈ ks →
  truthy_str (prop (credentials src input) k) = false →
  is_Some (first_falsy ks input).
Proof.
  induction ks as [ | [src' k'] ks IH ]; intros Hin Hf.
  - by apply elem_of_nil in Hin.
  - simpl. destruct (truthy_str (prop (credentials src' input) k')) eqn:E; [ | by eexists ].
    apply elem_of_cons in Hin as [ [= -> ->] | Hin ]; [ congruence | by apply IH ].
Qed.

(** An adapter throws [missing_<k>] with status 400 for the first required
    key [k] that is absent or empty, before it sends any request. *)
Lemma adapter_reports_first_falsy p fn input k net log :
  adapters !! p = Some fn →
  first_falsy (required_keys p) input = Some k →
  fn input net log = (inl (mkError ("missing_" +:+ k) (Some 400%Z)), log).
Proof.
  intros Hfn Hk. apply adapters_lookup in Hfn.
  table_cases Hfn; simpl in Hk; try discriminate Hk;
    repeat match type of Hk with
           | context [truthy_str ?v] => destruct (truthy_str v) eqn:?
           end;
    try discriminate Hk; injection Hk as <-;
    match goal with |- ?f _ _ _ = _ => unfold f end;
    unfold bind;
    repeat (rewrite reqd_truthy by assumption);
    rewrite reqd_falsy by assumption; reflexivity.
Qed.

(** C8: when a [tokens] or [account] key that the adapter requires is
    missing from the input, the adapter throws [missing_<keyName>] with
    status 400, where [keyName] is a required key that is absent or empty
    (the first one in the order of the checks), and the log of requests is
    left as it was: nothing was sent. *)
Theorem missing_required_key_fails_fast
    (p : string) (fn : Adapter) (src : Source) (k : string)
    (input : NormalizedPost) (net : Net) (log : list Request) :
  adapters !! p = Some fn →
  (src, k) ∈ required_keys p →
  prop (credentials src input) k = None →
  ∃ src' k',
    (src', k') ∈ required_keys p
    ∧ truthy_str (prop (credentials src' input) k') = false
    ∧ first_falsy (required_keys p) input = Some k'
    ∧ fn input net log = (inl (mkError ("missing_" +:+ k') (Some 400%Z)), log)
    ∧ postToPlatform p input net log = (inl (mkError ("missing_" +:+ k') (Some 400%Z)), log).
Proof.
  intros Hfn Hreq Hmiss.
  destruct (first_falsy_exists (required_keys p) input src k Hreq) as [k' Hk'].
  { rewrite Hmiss. reflexivity. }
  destruct (first_falsy_Some _ _ _ Hk') as (src' & Hin & Hf).
  exists src', k'. split_and!; try done.
  - by eapply adapter_reports_first_falsy.
  - unfold postToPlatform, adapters_get. rewrite Hfn.
    by eapply adapter_reports_first_falsy.
Qed.

Lemma missing_required_key_fails_fast_witness :
  ∃ src' k',
    (src', k') ∈ required_keys "instagram"
    ∧ truthy_str (prop (credentials src' (bare_post "hi")) k') = false
    ∧ first_falsy (required_keys "instagram") (bare_post "hi") = Some k'
    ∧ instagramPost (bare_post "hi") offline [] =
      (inl (mkError ("missing_" +:+ k') (Some 400%Z)), [])
    ∧ postToPlatform "instagram" (bare_post "hi") offline [] =
      (inl (mkError ("missing_" +:+ k') (Some 400%Z)), []).
Proof.
  apply (missing_required_key_fails_fast "instagram" instagramPost Account "ig_user_id").
  - vm_compute. reflexivity.
  - vm_compute. set_solver.
  - vm_compute. reflexivity.
Defined.

(** The table [required_keys] leaves nothing out: when every key of it is
    there, and so are [mediaUrl] and [to] (which some adapters require
    besides), the adapter goes on to the network and sends a request. *)
Lemma adapter_sends_request p fn input net log :
  adapters !! p = Some fn →
  required_keys p ≠ [] →
  first_falsy (required_keys p) input = None →
  truthy_str (mediaUrl input) = true →
  truthy_str (to input) = true →
  ∃ q more, (fn input net log).2 = log ++ q :: more.
Proof.
  intros Hfn Hreq Hk Hmedia Hto. apply adapters_lookup in Hfn.
  table_cases Hfn; simpl in Hreq; try done; simpl in Hk;
    repeat match type of Hk with
           | context [truthy_str ?v] => destruct (truthy_str v) eqn:?
           end;
    try discriminate Hk;
    match goal with |- ∃ q more, (?f _ _ _).2 = _ => unfold f end;
    unfold bind;
    repeat (rewrite reqd_truthy by assumption);
    rewrite ?Hmedia; cbn [negb]; cbv beta iota;
    unfold http_post, jdot, ret, throw; cbv beta zeta;
    repeat match goal with
           | |- context [net ?l ?q] => destruct (net l q); cbv beta iota zeta
           | |- context [match r_data ?r with _ => _ end] => destruct (r_data r); cbv beta iota zeta
           end;
    cbn [snd]; eexists _, _; rewrite <- ?app_assoc; cbn [app]; reflexivity.
Qed.

(** A call that goes through: the Telegram adapter with its token and chat
    id, on a network that answers. *)
Example telegram_sends_message :
  telegramPost
    (mkPost (Some "hello") None None None None
            (Some {[ "TELEGRAM_BOT_TOKEN" := "T" ]}) (Some {[ "chat_id" := "42" ]})
            None None None)
    (replying (mkResponse 200 (JObj [("result", JObj [("message_id", JInt 7)])]) (JObj [])))
    [] =
  (inr (RObj [("id", JInt 7)]),
   [mkRequest "https://api.telegram.org/botT/sendMessage"
      (BJson (JObj [("chat_id", JStr "42"); ("text", JStr "hello")])) [] []]).
Proof. vm_compute. reflexivity. Qed.

(** Instagram publishes in two requests; the id of the container made by
    the first goes into the second. *)
Example instagram_publishes_in_two_requests :
  instagramPost
    (mkPost (Some "hello") (Some "https://example.org/a.png") None None None
            (Some {[ "IG_TOKEN" := "T" ]}) (Some {[ "ig_user_id" := "17" ]})
            None None None)
    (replying (mkResponse 200 (JObj [("id", JStr "c1")]) (JObj [])))
    [] =
  (inr (RObj [("id", JStr "c1")]),
   [mkRequest "https://graph.facebook.com/v19.0/17/media"
      (BJson (JObj [("image_url", JStr "https://example.org/a.png"); ("caption", JStr "hello")]))
      [("access_token", "T")] [];
    mkRequest "https://graph.facebook.com/v19.0/17/media_publish"
      (BJson (JObj [("creation_id", JStr "c1")]))
      [("access_token", "T")] []]).
Proof. vm_compute. reflexivity. Qed.

(** *** What every adapter does with the network *)

Lemma object_prototype_keys_NoDup : NoDup (object_prototype_literal.*1).
Proof. apply (bool_decide_unpack _). vm_compute. exact I. Qed.

Lemma object_prototype_lookup p fn :
  object_prototype !! p = Some fn ↔ (p, fn) ∈ object_prototype_literal.
Proof. symmetry. apply elem_of_list_to_map, object_prototype_keys_NoDup. Qed.

(** Follow an adapter through every branch: each test of a field, each
    answer of the network [net], each shape of a response body. *)
Ltac adapter_branches net :=
  unfold bind, reqd, jdot, err, http_post; unfold throw, ret; cbv beta zeta;
  repeat match goal with
         | |- context [truthy_str ?v] =>
             destruct (truthy_str v) eqn:?; cbn [negb]; cbv beta iota zeta
         | |- context [net ?l ?q] => destruct (net l q) eqn:?; cbv beta iota zeta
         | |- context [match r_data ?r with _ => _ end] =>
             destruct (r_data r); cbv beta iota zeta
         end.

(** An adapter only adds to the log of requests, never more than two
    requests in a call, and never more than one unless it is Instagram's
    (which creates a container and then publishes it). *)
Theorem adapter_sends_at_most_two_requests
    (p : string) (fn : Adapter) (input : NormalizedPost) (net : Net) (log : list Request) :
  adapters !! p = Some fn →
  ∃ more,
    (fn input net log).2 = log ++ more
    ∧ length more ≤ (if String.eqb p "instagram" then 2 else 1).
Proof.
  intros Hfn. apply adapters_lookup in Hfn.
  table_cases Hfn;
    match goal with |- ∃ more, (?f _ _ _).2 = _ ∧ _ => unfold f end;
    adapter_branches net; cbn [snd String.eqb Ascii.eqb Bool.eqb];
    first [ exists []; split; [ by rewrite app_nil_r | simpl; lia ]
          | eexists [_]; split; [ reflexivity | simpl; lia ]
          | eexists [_; _]; split; [ by rewrite <- app_assoc | simpl; lia ] ].
Qed.

Lemma adapter_sends_at_most_two_requests_witness :
  ∃ more,
    (telegramPost (bare_post "hi") offline []).2 = [] ++ more
    ∧ length more ≤ (if String.eqb "telegram" "instagram" then 2 else 1).
Proof.
  apply (adapter_sends_at_most_two_requests "telegram" telegramPost).
  vm_compute. reflexivity.
Defined.

(** An adapter call that resolves has found every key it requires and has
    sent at least one request: no adapter reports a post it did not send. *)
Theorem adapter_success_means_request_sent
    (p : string) (fn : Adapter) (input : NormalizedPost) (net : Net)
    (log log' : list Request) (res : Result) :
  adapters !! p = Some fn →
  fn input net log = (inr res, log') →
  first_falsy (required_keys p) input = None
  ∧ ∃ q more, log' = log ++ q :: more.
Proof.
  intros Hfn. apply adapters_lookup in Hfn.
  table_cases Hfn;
    match goal with |- ?f _ _ _ = _ → _ => unfold f end;
    adapter_branches net; intros Hres; try discriminate Hres;
    injection Hres as _ <-;
    (split;
     [ simpl;
       repeat match goal with
              | H : truthy_str ?v = true |- context [truthy_str ?v] => rewrite H
              end; reflexivity
     | eexists _, _; rewrite <- ?app_assoc; cbn [app]; reflexivity ]).
Qed.

Lemma adapter_success_means_request_sent_witness :
  first_falsy (required_keys "telegram")
    (mkPost (Some "hello") None None None None
            (Some {[ "TELEGRAM_BOT_TOKEN" := "T" ]}) (Some {[ "chat_id" := "42" ]})
            None None None) = None
  ∧ ∃ q more,
      [mkRequest "https://api.telegram.org/botT/sendMessage"
         (BJson (JObj [("chat_id", JStr "42"); ("text", JStr "hello")])) [] []]
      = [] ++ q :: more.
Proof.
  apply (adapter_success_means_request_sent "telegram" telegramPost
           (mkPost (Some "hello") None None None None
                   (Some {[ "TELEGRAM_BOT_TOKEN" := "T" ]}) (Some {[ "chat_id" := "42" ]})
                   None None None)
           (replying (mkResponse 200 (JObj [("result", JObj [("message_id", JInt 7)])]) (JObj [])))
           [] _ (RObj [("id", JInt 7)])).
  - vm_compute. reflexivity.
  - vm_compute. reflexivity.
Defined.

(** When the network rejects the request, the adapter throws the error of
    the network as it is, after this one request: adapters do not catch,
    retry or rewrap. *)
Theorem network_error_is_passed_through
    (p : string) (fn : Adapter) (input : NormalizedPost) (net : Net)
    (log : list Request) (e : Error) :
  adapters !! p = Some fn →
  required_keys p ≠ [] →
  first_falsy (required_keys p) input = None →
  truthy_str (mediaUrl input) = true →
  truthy_str (to input) = true →
  (∀ l q, net l q = inl e) →
  ∃ q, fn input net log = (inl e, log ++ [q]).
Proof.
  intros Hfn Hreq Hk Hmedia Hto Hnet. apply adapters_lookup in Hfn.
  table_cases Hfn; simpl in Hreq; try done; simpl in Hk;
    repeat match type of Hk with
           | context [truthy_str ?v] => destruct (truthy_str v) eqn:?
           end;
    try discriminate Hk;
    match goal with |- ∃ q, ?f _ _ _ = _ => unfold f end;
    unfold bind;
    repeat (rewrite reqd_truthy by assumption);
    rewrite ?Hmedia; cbn [negb]; cbv beta iota;
    unfold http_post; cbv beta zeta; rewrite Hnet; eexists; reflexivity.
Qed.

Lemma network_error_is_passed_through_witness :
  ∃ q,
    telegramPost
      (mkPost (Some "hello") (Some "https://example.org/a.png") None None None
              (Some {[ "TELEGRAM_BOT_TOKEN" := "T" ]}) (Some {[ "chat_id" := "42" ]})
              (Some "u1") None None)
      offline [] =
    (inl (type_error "timeout of 12000ms exceeded"), [] ++ [q]).
Proof.
  apply (network_error_is_passed_through "telegram" telegramPost).
  - vm_compute. reflexivity.
  - vm_compute. discriminate.
  - vm_compute. reflexivity.
  - vm_compute. reflexivity.
  - vm_compute. reflexivity.
  - reflexivity.
Defined.

(** Close a goal whose hypothesis [H] puts a name in a list of other
    names. *)
Ltac not_listed H :=
  repeat (apply elem_of_cons in H as [H | H]; [ discriminate H | ]);
  by apply elem_of_nil in H.

(** Instagram, TikTok and Pinterest post an image or a video by its URL:
    with their credentials but without [mediaUrl] they throw with status
    400 and send nothing. *)
Theorem media_platforms_require_mediaUrl
    (p : string) (fn : Adapter) (input : NormalizedPost) (net : Net) (log : list Request) :
  adapters !! p = Some fn →
  p ∈ ["instagram"; "tiktok"; "pinterest"] →
  first_falsy (required_keys p) input = None →
  truthy_str (mediaUrl input) = false →
  fn input net log =
    (inl (mkError (if String.eqb p "instagram"
                   then "instagram_requires_mediaUrl" else "missing_mediaUrl")
                  (Some 400%Z)),
     log).
Proof.
  intros Hfn Hp Hk Hmedia. apply adapters_lookup in Hfn.
  table_cases Hfn;
    try (exfalso; not_listed Hp);
    simpl in Hk;
    repeat match type of Hk with
           | context [truthy_str ?v] => destruct (truthy_str v) eqn:?
           end;
    try discriminate Hk;
    match goal with |- ?f _ _ _ = _ => unfold f end;
    unfold bind;
    repeat (rewrite reqd_truthy by assumption);
    rewrite ?Hmedia; cbn [negb]; cbv beta iota;
    rewrite ?reqd_falsy by exact Hmedia; reflexivity.
Qed.

Lemma media_platforms_require_mediaUrl_witness :
  instagramPost
    (mkPost (Some "hello") None None None None
            (Some {[ "IG_TOKEN" := "T" ]}) (Some {[ "ig_user_id" := "17" ]})
            None None None)
    offline [] =
  (inl (mkError (if String.eqb "instagram" "instagram"
                 then "instagram_requires_mediaUrl" else "missing_mediaUrl")
                (Some 400%Z)),
   []).
Proof.
  apply (media_platforms_require_mediaUrl "instagram" instagramPost).
  - vm_compute. reflexivity.
  - set_solver.
  - vm_compute. reflexivity.
  - reflexivity.
Defined.

(** WhatsApp and LINE send a message to a recipient: with their credentials
    but without [to] they throw [missing_to] with status 400 and send
    nothing. *)
Theorem message_platforms_require_to
    (p : string) (fn : Adapter) (input : NormalizedPost) (net : Net) (log : list Request) :
  adapters !! p = Some fn →
  p ∈ ["whatsapp"; "line"] →
  first_falsy (required_keys p) input = None →
  truthy_str (to input) = false →
  fn input net log = (inl (mkError "missing_to" (Some 400%Z)), log).
Proof.
  intros Hfn Hp Hk Hto. apply adapters_lookup in Hfn.
  table_cases Hfn;
    try (exfalso; not_listed Hp);
    simpl in Hk;
    repeat match type of Hk with
           | context [truthy_str ?v] => destruct (truthy_str v) eqn:?
           end;
    try discriminate Hk;
    match goal with |- ?f _ _ _ = _ => unfold f end;
    unfold bind;
    repeat (rewrite reqd_truthy by assumption);
    rewrite reqd_falsy by exact Hto; reflexivity.
Qed.

Lemma message_platforms_require_to_witness :
  linePost
    (mkPost (Some "hello") None None None None
            (Some {[ "LINE_CHANNEL_TOKEN" := "T" ]}) (Some ∅) None None None)
    offline [] =
  (inl (mkError "missing_to" (Some 400%Z)), []).
Proof.
  apply (message_platforms_require_to "line" linePost).
  - vm_compute. reflexivity.
  - set_solver.
  - vm_compute. reflexivity.
  - reflexivity.
Defined.

Lemma adapter_sends_request_witness :
  ∃ q more,
    (telegramPost
       (mkPost (Some "hello") (Some "https://example.org/a.png") None None None
               (Some {[ "TELEGRAM_BOT_TOKEN" := "T" ]}) (Some {[ "chat_id" := "42" ]})
               (Some "u1") None None)
       offline []).2 = [] ++ q :: more.
Proof.
  apply (adapter_sends_request "telegram" telegramPost).
  - vm_compute. reflexivity.
  - vm_compute. discriminate.
  - vm_compute. reflexivity.
  - vm_compute. reflexivity.
  - vm_compute. reflexivity.
Defined.

Lemma registered_adapter_fails_without_tokens
    (p : string) (fn : Adapter) (input : NormalizedPost) (net : Net) (log : list Request) :
  (∀ k, prop (tokens input) k = None) →
  adapters !! p = Some fn →
  ∃ e, fn input net log = (inl e, log)
       ∧ (e_status e = Some 400%Z ∨ e_status e = Some 501%Z).
Proof.
  intros Htok Hfn. apply adapters_lookup in Hfn.
  table_cases Hfn;
    match goal with |- ∃ e, ?f _ _ _ = _ ∧ _ => unfold f end;
    first [ eexists; split; [ reflexivity | by right ]
          | unfold bind; rewrite reqd_falsy by (by rewrite Htok);
            eexists; split; [ reflexivity | by left ] ].
Qed.

Lemma postToPlatform_without_tokens
    (platform : string) (input : NormalizedPost) (net : Net) (log : list Request) :
  (∀ k, prop (tokens input) k = None) →
  (postToPlatform platform input net log).2 = log.
Proof.
  intros Htok. unfold postToPlatform, adapters_get.
  destruct (adapters !! platform) as [ fn | ] eqn:Hfn.
  - destruct (registered_adapter_fails_without_tokens _ _ input net log Htok Hfn)
      as (e & -> & _).
    reflexivity.
  - destruct (object_prototype !! platform) as [ fn | ] eqn:Hproto; [ | reflexivity ].
    apply object_prototype_lookup in Hproto. table_cases Hproto; reflexivity.
Qed.

(** Every adapter that is not a stub asks for a token first. So with no
    token at all in the input, no platform name makes [postToPlatform] send a
    request, and every registered adapter throws with status 400 (a missing
    token) or 501 (a stub). *)
Theorem without_tokens_nothing_is_sent
    (platform : string) (input : NormalizedPost) (net : Net) (log : list Request) :
  (∀ k, prop (tokens input) k = None) →
  (postToPlatform platform input net log).2 = log
  ∧ ∀ fn, adapters !! platform = Some fn →
      ∃ e, fn input net log = (inl e, log)
           ∧ (e_status e = Some 400%Z ∨ e_status e = Some 501%Z).
Proof.
  intros Htok. split.
  - by apply postToPlatform_without_tokens.
  - intros fn Hfn. by eapply registered_adapter_fails_without_tokens.
Qed.

Lemma without_tokens_nothing_is_sent_witness :
  (postToPlatform "telegram" (bare_post "hi") (replying (mkResponse 200 JNull (JObj []))) []).2 = []
  ∧ ∀ fn, adapters !! "telegram" = Some fn →
      ∃ e, fn (bare_post "hi") (replying (mkResponse 200 JNull (JObj []))) [] = (inl e, [])
           ∧ (e_status e = Some 400%Z ∨ e_status e = Some 501%Z).
Proof.
  apply (without_tokens_nothing_is_sent "telegram" (bare_post "hi")).
  intros k. reflexivity.
Defined.

(** *** Texts that are cut *)

Lemma substring_0_length (n : nat) (s : string) : String.length (substring 0 n s) ≤ n.
Proof.
  revert s. induction n as [ | n IH ]; intros [ | c s ]; simpl; try lia.
  specialize (IH s). lia.
Qed.

Lemma substring_0_prefix (n : nat) (s : string) : ∃ rest, s = substring 0 n s +:+ rest.
Proof.
  revert s. induction n as [ | n IH ]; intros [ | c s ]; simpl; try by eexists.
  destruct (IH s) as (rest & Hrest). exists rest.
  change (String c s = String c (substring 0 n s +:+ rest)). by f_equal.
Qed.

Lemma substring_0_short (n : nat) (s : string) : String.length s ≤ n → substring 0 n s = s.
Proof.
  revert s. induction n as [ | n IH ]; intros [ | c s ]; simpl; try done; try lia.
  intros Hlen. rewrite IH by lia. reflexivity.
Qed.

(** Twitter: with a bearer token the adapter sends one request to the tweets
    endpoint, whose text has at most 280 characters and is the beginning of
    the input's text; a text of at most 280 characters is sent as it is. *)
Theorem twitter_text_is_cut_to_280
    (input : NormalizedPost) (net : Net) (log : list Request) :
  truthy_str (prop (tokens input) "X_BEARER") = true →
  ∃ t rest,
    (twitterPost input net log).2 =
      log ++ [mkRequest "https://api.twitter.com/2/tweets"
                (BJson (JObj [("text", JStr t)])) []
                (bearer (default "" (prop (tokens input) "X_BEARER")))]
    ∧ String.length t ≤ 280
    ∧ str_or (text input) "" = t +:+ rest
    ∧ (String.length (str_or (text input) "") ≤ 280 → t = str_or (text input) "").
Proof.
  intros Htok. unfold twitterPost, bind. rewrite reqd_truthy by done.
  unfold http_post. cbv beta zeta.
  assert (Hcut : ∃ rest,
            String.length (str_or (slice0 280 <$> text input) "") ≤ 280
            ∧ str_or (text input) "" = str_or (slice0 280 <$> text input) "" +:+ rest
            ∧ (String.length (str_or (text input) "") ≤ 280 →
               str_or (slice0 280 <$> text input) "" = str_or (text input) "")).
  { destruct (text input) as [ s | ]; [ | exists ""; simpl; split_and!; [ lia | done | done ] ].
    unfold slice0. cbn [fmap option_fmap option_map str_or].
    destruct (substring_0_prefix 280 s) as (rest & Hrest).
    pose proof (substring_0_length 280 s) as Hlen.
    destruct (String.eqb_spec (substring 0 280 s) "") as [ He | Hne ];
      destruct (String.eqb_spec s "") as [ -> | Hs ].
    - exists "". split_and!; [ simpl; lia | done | done ].
    - exists s. split_and!; [ simpl; lia | done | ].
      intros Hshort. rewrite substring_0_short in He by done. done.
    - exists "". split_and!; [ simpl; lia | done | done ].
    - exists rest. split_and!; [ done | done | ].
      intros Hshort. by apply substring_0_short. }
  destruct Hcut as (rest & Hlen & Hpre & Hshort).
  exists (str_or (slice0 280 <$> text input) ""), rest.
  split_and!; try done.
  by destruct (net log _).
Qed.

Lemma twitter_text_is_cut_to_280_witness :
  ∃ t rest,
    (twitterPost
       (mkPost (Some "hello") None None None None (Some {[ "X_BEARER" := "T" ]}) (Some ∅)
               None None None)
       offline []).2 =
      [] ++ [mkRequest "https://api.twitter.com/2/tweets"
               (BJson (JObj [("text", JStr t)])) []
               (bearer (default ""
                  (prop (tokens (mkPost (Some "hello") None None None None
                                        (Some {[ "X_BEARER" := "T" ]}) (Some ∅)
                                        None None None)) "X_BEARER")))]
    ∧ String.length t ≤ 280
    ∧ str_or (Some "hello") "" = t +:+ rest
    ∧ (String.length (str_or (Some "hello") "") ≤ 280 → t = str_or (Some "hello") "").
Proof.
  apply (twitter_text_is_cut_to_280
           (mkPost (Some "hello") None None None None (Some {[ "X_BEARER" := "T" ]}) (Some ∅)
                   None None None)).
  vm_compute. reflexivity.
Defined.

End Adapters.

(** ** server.js: request bodies and their schemas *)

Module Zod.
Import JS.

(** A schema parses a JSON value ([JUndef] for a key that is absent) into a
    typed value; [None] is a failed [safeParse]. Objects are duplicate-free
    lists of fields, as [JSON.parse] builds them. *)
Definition Schema (A : Type) : Type := json -> option A.

Definition field (fs : list (string * json)) (k : string) : json :=
  default JUndef (assoc k fs).

(** [z.string()] *)
Definition z_string : Schema string := fun j =>
  match j with JStr s => Some s | _ => None end.

(** [z.string().min(n)] *)
Definition z_string_min (n : nat) : Schema string := fun j =>
  match j with
  | JStr s => if decide (n ≤ String.length s)%nat then Some s else None
  | _ => None
  end.

(** [z.enum([...])] *)
Definition z_enum (values : list string) : Schema string := fun j =>
  match j with
  | JStr s => if decide (s ∈ values) then Some s else None
  | _ => None
  end.

(** [z.array(item)] *)
Definition z_array {A} (item : Schema A) : Schema (list A) := fun j =>
  match j with JArr l => mapM item l | _ => None end.

(** [schema.optional()] *)
Definition z_optional {A} (schema : Schema A) : Schema (option A) := fun j =>
  match j with JUndef => Some None | _ => Some <$> schema j end.

(** [schema.default(d)] *)
Definition z_default {A} (d : A) (schema : Schema A) : Schema A := fun j =>
  match j with JUndef => Some d | _ => schema j end.

(** [z.string().url()]; [is_url] says which strings the library takes for
    URLs. *)
Definition z_url (is_url : string -> bool) : Schema string := fun j =>
  match j with
  | JStr s => if is_url s then Some s else None
  | _ => None
  end.

(** [z.number().int().nonnegative()]: a number that is an integer and is
    not negative. *)
Definition z_index : Schema Z := fun j =>
  match j with
  | JNum q =>
      let n := QArith_base.Qnum q in
      let d := Z.pos (QArith_base.Qden q) in
      if decide (n `mod` d = 0 ∧ 0 ≤ n)%Z then Some (n `div` d)%Z else None
  | _ => None
  end.

End Zod.

(** ** server.js: replies *)

Module Express.

(** What a handler sends back: [ok(res, data)] or [bad(res, error, code)].
    The text of a schema failure is the library's and is not modelled. *)
Inductive ErrorText := zod_message | message (m : string).

Inductive Reply (A : Type) : Type :=
  | ok (data : A)
  | bad (error : ErrorText) (code : Z).
Arguments ok {A} data.
Arguments bad {A} error code.

(** What the client gets from a handler that ends with [res.json]. The
    handler has sent its reply when [res.json] returns. [res.json] turns
    the reply into text with [JSON.stringify], which throws a RangeError
    when the text would be longer than the longest string of the engine; the
    handler then throws, and Express answers with status 500. *)
Inductive Sent (A : Type) : Type :=
  | sent (r : Reply A)
  | failed_500.
Arguments sent {A} r.
Arguments failed_500 {A}.

End Express.

(** ** server.js: approvals *)

Module Approvals.
Import JS Zod Express.

Inductive ApprovalStatus := PENDING | DECIDED.

Record ApprovalItem := mkItem {
  i_platform : string;
  i_kind : string;
  i_text : string;
  i_mediaUrls : option (list string)
}.

Record Decision := mkDecision {
  d_decision : string;
  d_note : option string;
  d_ts : string
}.

Record ApprovalRecord := mkRecord {
  a_id : string;
  a_status : ApprovalStatus;
  a_policy : string;
  a_items : list ApprovalItem;
  a_decisions : list (option Decision);
  a_createdAt : string
}.

Section Handlers.

(** Which strings the schema library takes for URLs. *)
Variable is_url : string -> bool.

(** [const ApprovalItem = z.object({ platform:z.string(),
      kind:z.enum(['post','story','ad','reel']), text:z.string().min(1),
      mediaUrls:z.array(z.string().url()).optional() })] *)
Definition ApprovalItem_schema : Schema ApprovalItem := fun j =>
  match j with
  | JObj fs =>
      platform ← z_string (field fs "platform");
      kind ← z_enum ["post"; "story"; "ad"; "reel"] (field fs "kind");
      text ← z_string_min 1 (field fs "text");
      mediaUrls ← z_optional (z_array (z_url is_url)) (field fs "mediaUrls");
      Some (mkItem platform kind text mediaUrls)
  | _ => None
  end.

(** [z.object({ items: z.array(ApprovalItem), policy: z.string().default('generic') })] *)
Definition submit_schema : Schema (list ApprovalItem * string) := fun j =>
  match j with
  | JObj fs =>
      items ← z_array ApprovalItem_schema (field fs "items");
      policy ← z_default "generic" z_string (field fs "policy");
      Some (items, policy)
  | _ => None
  end.

(** [z.object({ index:z.number().int().nonnegative(),
      decision:z.enum(['APPROVED','REJECTED']), note:z.string().optional() })] *)
Definition decision_schema : Schema (Z * string * option string) := fun j =>
  match j with
  | JObj fs =>
      index ← z_index (field fs "index");
      decision ← z_enum ["APPROVED"; "REJECTED"] (field fs "decision");
      note ← z_optional z_string (field fs "note");
      Some (index, decision, note)
  | _ => None
  end.

(** [const approvals = new Map()] *)
Abbreviation Store := (gmap string ApprovalRecord).

(** [app.post('/api/approval/submit', ...)]. [rnd] is what
    [Math.random().toString(36).slice(2)] gives and [ts] is
    [new Date().toISOString()]. *)
Definition approval_submit (body : json) (rnd ts : string) (approvals : Store)
    : Reply (string * ApprovalStatus) * Store :=
  match submit_schema body with
  | None => (bad zod_message 400, approvals)
  | Some (items, policy) =>
      let id := "appr_" +:+ rnd in
      let record := mkRecord id PENDING policy items [] ts in
      (ok (id, a_status record), <[id := record]> approvals)
  end.

(** [app.get('/api/approval/:id', ...)] *)
Definition approval_get (id : string) (approvals : Store) : Reply ApprovalRecord :=
  match approvals !! id with
  | None => bad (message "not_found") 404
  | Some r => ok r
  end.

(** [r.decisions[index] = d]: an index above [max_index] is not an array
    index; the assignment then makes a property that is no slot of the
    array, is not seen by [includes] and is not serialised. *)
Definition decisions_set (a : list (option Decision)) (index : Z) (d : Decision)
    : list (option Decision) :=
  if decide (index ≤ max_index)%Z then array_set a (Z.to_nat index) d else a.

(** [app.post('/api/approval/:id/decision', ...)]: the store after the
    handler, and the reply the handler hands to [res.json] on its last
    line. What the client gets once [res.json] has run is [decision_route]. *)
Definition approval_decision (id : string) (body : json) (ts : string) (approvals : Store)
    : Reply (ApprovalStatus * list (option Decision)) * Store :=
  match approvals !! id with
  | None => (bad (message "not_found") 404, approvals)
  | Some r =>
      match decision_schema body with
      | None => (bad zod_message 400, approvals)
      | Some (index, decision, note) =>
          let decisions := decisions_set (a_decisions r) index (mkDecision decision note ts) in
          let status := if includes_undefined decisions then PENDING else DECIDED in
          let r' := mkRecord (a_id r) status (a_policy r) (a_items r) decisions (a_createdAt r) in
          (ok (status, decisions), <[id := r']> approvals)
      end
  end.

(** Every index of [items] has a decision. *)
Definition all_decided (r : ApprovalRecord) : Prop :=
  ∀ i, i < length (a_items r) → ∃ d, a_decisions r !! i = Some (Some d).

(** *** Bodies used as examples *)

Definition item_json (platform kind text : string) : json :=
  JObj [("platform", JStr platform); ("kind", JStr kind); ("text", JStr text)].

Definition two_items_body : json :=
  JObj [("items", JArr [item_json "x" "post" "hi"; item_json "instagram" "reel" "yo"])].

Definition decision_body (index : Z) (decision : string) : json :=
  JObj [("index", JInt index); ("decision", JStr decision)].

(** Decisions taken one after the other on the record [id]. *)
Fixpoint decide_each (id : string) (indices : list nat) (ts : string) (approvals : Store) : Store :=
  match indices with
  | [] => approvals
  | i :: rest =>
      decide_each id rest ts
        (approval_decision id (decision_body (Z.of_nat i) "APPROVED") ts approvals).2
  end.

(** *** Which bodies [submit] accepts *)

Definition kinds : list string := ["post"; "story"; "ad"; "reel"].

(** An item as the schema wants it: an object with a string [platform], a
    [kind] among the four, a non-empty string [text], and [mediaUrls] absent
    or an array of URL strings. *)
Definition item_ok (j : json) : Prop :=
  ∃ fs platform kind text,
    j = JObj fs
    ∧ field fs "platform" = JStr platform
    ∧ field fs "kind" = JStr kind ∧ kind ∈ kinds
    ∧ field fs "text" = JStr text ∧ text ≠ ""
    ∧ (field fs "mediaUrls" = JUndef
       ∨ ∃ urls, field fs "mediaUrls" = JArr (JStr <$> urls)
                 ∧ Forall (λ u, is_url u = true) urls).

(** A body as the schema wants it: an object whose [items] is an array of
    such items (of any length) and whose [policy] is absent or a string. *)
Definition body_ok (j : json) : Prop :=
  ∃ fs l,
    j = JObj fs
    ∧ field fs "items" = JArr l
    ∧ Forall item_ok l
    ∧ (field fs "policy" = JUndef ∨ ∃ p, field fs "policy" = JStr p).

(** *** Facts on sparse arrays *)

Lemma array_set_lookup {A} (a : list (option A)) i x :
  array_set a i x !! i = Some (Some x).
Proof.
  unfold array_set. case_decide.
  - by apply list_lookup_insert_eq.
  - rewrite lookup_app_r by lia. rewrite lookup_app_r; rewrite length_replicate; [ | lia ].
    by replace (i - length a - (i - length a)) with 0 by lia.
Qed.

Lemma array_set_length {A} (a : list (option A)) i x :
  length (array_set a i x) = length a `max` S i.
Proof.
  unfold array_set. case_decide.
  - rewrite length_insert. lia.
  - rewrite !length_app, length_replicate. simpl. lia.
Qed.

Lemma array_set_lookup_ne {A} (a : list (option A)) i j x :
  i ≠ j → j < length a → array_set a i x !! j = a !! j.
Proof.
  intros Hne Hj. unfold array_set. case_decide.
  - by apply list_lookup_insert_ne.
  - by rewrite lookup_app_l.
Qed.

(** The slots between the old end of the array and a new last index are
    holes. *)
Lemma array_set_hole {A} (a : list (option A)) i j x :
  length a ≤ j → j < i → array_set a i x !! j = Some None.
Proof.
  intros Hj Hi. unfold array_set. case_decide; [ lia | ].
  rewrite lookup_app_r by lia. rewrite lookup_app_l by (rewrite length_replicate; lia).
  apply lookup_replicate. split; [ done | lia ].
Qed.

Lemma includes_undefined_true {A} (a : list (option A)) :
  includes_undefined a = true ↔ ∃ i, a !! i = Some None.
Proof.
  unfold includes_undefined. rewrite existsb_exists. split.
  - intros ([ x | ] & Hin & Hx); [ discriminate | ].
    apply list_elem_of_In, list_elem_of_lookup in Hin. exact Hin.
  - intros (i & Hi). exists None. split; [ | done ].
    apply list_elem_of_In, list_elem_of_lookup. by exists i.
Qed.

Lemma includes_undefined_false {A} (a : list (option A)) :
  includes_undefined a = false ↔ ∀ i, i < length a → ∃ x, a !! i = Some (Some x).
Proof.
  split.
  - intros Hf i Hi. destruct (lookup_lt_is_Some_2 a i Hi) as [ [ x | ] Hx ]; [ by exists x | ].
    assert (includes_undefined a = true) by (apply includes_undefined_true; by exists i).
    congruence.
  - intros Hall. destruct (includes_undefined a) eqn:E; [ | done ].
    apply includes_undefined_true in E as (i & Hi).
    destruct (Hall i) as (x & Hx); [ by eapply lookup_lt_Some | congruence ].
Qed.

(** *** What a decision call does *)

(** A decision on an existing record with a well-formed body is always
    accepted; the record keeps its items, and its status is PENDING exactly
    when the array of decisions has a hole below its own length. *)
Lemma approval_decision_accepted id body ts (approvals : Store) r index decision note :
  approvals !! id = Some r →
  decision_schema body = Some (index, decision, note) →
  let decisions := decisions_set (a_decisions r) index (mkDecision decision note ts) in
  let status := if includes_undefined decisions then PENDING else DECIDED in
  approval_decision id body ts approvals =
    (ok (status, decisions),
     <[id := mkRecord (a_id r) status (a_policy r) (a_items r) decisions (a_createdAt r)]> approvals).
Proof. intros Hr Hb. unfold approval_decision. rewrite Hr, Hb. reflexivity. Qed.

(** The status the handler computes looks at the decisions array only: it
    is DECIDED exactly when no slot below the length of that array is
    empty, whatever the number of items. *)
Lemma status_after_decision id body ts (approvals : Store) r index decision note :
  approvals !! id = Some r →
  decision_schema body = Some (index, decision, note) →
  ∃ r', (approval_decision id body ts approvals).2 !! id = Some r'
    ∧ a_items r' = a_items r
    ∧ (a_status r' = DECIDED ↔
       ∀ i, i < length (a_decisions r') → ∃ d, a_decisions r' !! i = Some (Some d)).
Proof.
  intros Hr Hb. rewrite (approval_decision_accepted _ _ _ _ _ _ _ _ Hr Hb). simpl.
  eexists. split; [ apply lookup_insert_eq | ]. simpl. split; [ done | ].
  rewrite <- includes_undefined_false.
  destruct (includes_undefined _); split; congruence.
Qed.

Lemma decision_body_parses (index : Z) :
  (0 ≤ index)%Z →
  decision_schema (decision_body index "APPROVED") = Some (index, "APPROVED", None).
Proof.
  intros Hi. unfold decision_schema, decision_body, field. simpl.
  unfold z_index, JInt. simpl.
  rewrite Z.mod_1_r, Z.div_1_r. by rewrite decide_True.
Qed.

(** C1 (what the code does when the first of two items is decided): the
    record holds two items, only index 0 has a decision, and the handler
    sets the status to DECIDED, because [includes(undefined)] inspects the
    one-element decisions array and not the two indices of [items]. *)
Theorem first_of_two_decisions_marks_decided (rnd ts1 ts2 : string) :
  let id := "appr_" +:+ rnd in
  let submitted := approval_submit two_items_body rnd ts1 ∅ in
  let decided := approval_decision id (decision_body 0 "APPROVED") ts2 submitted.2 in
  submitted.1 = ok (id, PENDING)
  ∧ decided.1 = ok (DECIDED, [Some (mkDecision "APPROVED" None ts2)])
  ∧ ∃ r, decided.2 !! id = Some r
      ∧ length (a_items r) = 2
      ∧ a_decisions r !! 0 = Some (Some (mkDecision "APPROVED" None ts2))
      ∧ a_decisions r !! 1 = None
      ∧ a_status r = DECIDED
      ∧ ¬ all_decided r.
Proof.
  intros id submitted decided.
  assert (Hs : submitted =
    (ok (id, PENDING),
     <[id := mkRecord id PENDING "generic"
               [mkItem "x" "post" "hi" None; mkItem "instagram" "reel" "yo" None] [] ts1]> ∅))
    by reflexivity.
  assert (Hd : decided.2 !! id = Some
     (mkRecord id DECIDED "generic"
        [mkItem "x" "post" "hi" None; mkItem "instagram" "reel" "yo" None]
        [Some (mkDecision "APPROVED" None ts2)] ts1)
     ∧ decided.1 = ok (DECIDED, [Some (mkDecision "APPROVED" None ts2)])).
  { subst decided. rewrite Hs. simpl.
    erewrite approval_decision_accepted;
      [ | apply lookup_insert_eq | by apply decision_body_parses ].
    simpl. split; [ apply lookup_insert_eq | reflexivity ]. }
  destruct Hd as [Hd1 Hd2].
  split; [ by rewrite Hs | ]. split; [ exact Hd2 | ].
  eexists. split; [ exact Hd1 | ]. simpl. split_and!; try reflexivity.
  intros Hall. destruct (Hall 1) as (d & Hd); [ simpl; lia | discriminate Hd ].
Qed.

Lemma array_set_end {A} (a : list (option A)) x :
  array_set a (length a) x = a ++ [Some x].
Proof.
  unfold array_set. rewrite decide_False by lia.
  by replace (length a - length a) with 0 by lia.
Qed.

Lemma includes_undefined_app {A} (a b : list (option A)) :
  includes_undefined (a ++ b) = includes_undefined a || includes_undefined b.
Proof. unfold includes_undefined. apply existsb_app. Qed.

(** Deciding the indices [start, start+1, ..., start+k-1] of a record whose
    decisions array has length [start] and no hole: the array has length
    [start+k] and no hole, and after at least one decision the status is
    DECIDED, whatever the number of items. *)
Lemma decide_each_prefix id ts k : ∀ (approvals : Store) r,
  approvals !! id = Some r →
  includes_undefined (a_decisions r) = false →
  (Z.of_nat (length (a_decisions r) + k) ≤ max_index + 1)%Z →
  ∃ r', decide_each id (seq (length (a_decisions r)) k) ts approvals !! id = Some r'
    ∧ a_items r' = a_items r
    ∧ length (a_decisions r') = length (a_decisions r) + k
    ∧ includes_undefined (a_decisions r') = false
    ∧ (0 < k → a_status r' = DECIDED).
Proof.
  induction k as [ | k IH ]; intros approvals r Hr Hfull Hmax.
  - exists r. simpl. split_and!; try done; lia.
  - simpl.
    erewrite approval_decision_accepted;
      [ | exact Hr | apply decision_body_parses; lia ].
    simpl. unfold decisions_set. rewrite decide_True by lia.
    rewrite Nat2Z.id, array_set_end.
    set (d := mkDecision "APPROVED" None ts).
    assert (Hfull' : includes_undefined (a_decisions r ++ [Some d]) = false).
    { rewrite includes_undefined_app, Hfull. reflexivity. }
    rewrite Hfull'.
    set (r1 := mkRecord _ DECIDED _ _ _ _).
    destruct (IH (<[id := r1]> approvals) r1) as (r' & Hr' & Hitems & Hlen & Hno & Hst).
    { apply lookup_insert_eq. }
    { exact Hfull'. }
    { subst r1. simpl. rewrite length_app. simpl. lia. }
    subst r1. simpl in *. rewrite length_app in Hr', Hlen. simpl in Hr', Hlen.
    replace (length (a_decisions r) + 1) with (S (length (a_decisions r))) in Hr' by lia.
    exists r'. split_and!; try done; [ lia | ].
    intros _. destruct k; [ | apply Hst; lia ].
    simpl in Hr'. rewrite lookup_insert_eq in Hr'. by injection Hr' as <-.
Qed.

(** With N >= 2 items, deciding the indices 0 .. N-2 in turn on a fresh
    record leaves index N-1 without a decision and the status DECIDED. *)
Lemma all_but_last_decided_is_DECIDED id ts (approvals : Store) r :
  approvals !! id = Some r →
  a_decisions r = [] →
  2 ≤ length (a_items r) →
  (Z.of_nat (length (a_items r)) ≤ max_index)%Z →
  ∃ r', decide_each id (seq 0 (length (a_items r) - 1)) ts approvals !! id = Some r'
    ∧ a_items r' = a_items r
    ∧ (∀ i, i < length (a_items r) - 1 → ∃ d, a_decisions r' !! i = Some (Some d))
    ∧ a_decisions r' !! (length (a_items r) - 1) = None
    ∧ a_status r' = DECIDED.
Proof.
  intros Hr Hnil Hn Hmax.
  destruct (decide_each_prefix id ts (length (a_items r) - 1) approvals r Hr)
    as (r' & Hr' & Hitems & Hlen & Hno & Hst).
  { by rewrite Hnil. }
  { rewrite Hnil. simpl. lia. }
  rewrite Hnil in Hr', Hlen. simpl in Hr', Hlen.
  exists r'. split_and!; try done.
  - intros i Hi. apply includes_undefined_false; [ done | lia ].
  - apply lookup_ge_None. lia.
  - apply Hst. lia.
Qed.

Lemma z_url_array_Some (l : list json) (urls : list string) :
  mapM (z_url is_url) l = Some urls ↔ l = JStr <$> urls ∧ Forall (λ u, is_url u = true) urls.
Proof.
  rewrite mapM_Some. split.
  - induction 1 as [ | j u l urls Hju _ [-> IH] ]; [ done | ].
    unfold z_url in Hju. destruct j; try discriminate.
    destruct (is_url s) eqn:E; [ | discriminate ]. injection Hju as <-.
    split; [ done | by constructor ].
  - intros [-> Hall]. induction Hall as [ | u urls Hu _ IH ]; constructor; [ | done ].
    unfold z_url. by rewrite Hu.
Qed.

Lemma ApprovalItem_schema_ok (j : json) : is_Some (ApprovalItem_schema j) ↔ item_ok j.
Proof.
  split.
  - intros [it Hit]. destruct j as [ | | | | | | fs ]; try discriminate. simpl in Hit.
    destruct (field fs "platform") as [ | | | | platform | | ] eqn:Ep; try discriminate.
    simpl in Hit.
    destruct (field fs "kind") as [ | | | | kind | | ] eqn:Ek; try discriminate.
    simpl in Hit. case_decide as Hkind; [ | discriminate ]. simpl in Hit.
    destruct (field fs "text") as [ | | | | text | | ] eqn:Et; try discriminate.
    simpl in Hit. case_decide as Htext; [ | discriminate ]. simpl in Hit.
    exists fs, platform, kind, text. split_and!; try done.
    { intros ->. simpl in Htext. lia. }
    destruct (field fs "mediaUrls") as [ | | | | | l | ] eqn:Em; try discriminate; [ by left | ].
    right. simpl in Hit. destruct (mapM (z_url is_url) l) as [ urls | ] eqn:El; [ | discriminate ].
    apply z_url_array_Some in El as [-> Hall]. by exists urls.
  - intros (fs & platform & kind & text & -> & Ep & Ek & Hkind & Et & Htext & Hm).
    unfold kinds in Hkind.
    simpl. rewrite Ep, Ek, Et. simpl.
    destruct (decide (kind ∈ _)) as [ _ | [] ]; [ simpl | done ].
    destruct (decide (1 ≤ String.length text)) as [ _ | Hlen ];
      [ simpl | destruct text; [ done | simpl in Hlen; lia ] ].
    destruct Hm as [ -> | (urls & -> & Hall) ]; [ by eexists | ].
    simpl. assert (mapM (z_url is_url) (JStr <$> urls) = Some urls) as -> by by apply z_url_array_Some.
    by eexists.
Qed.

Lemma submit_schema_ok (j : json) : is_Some (submit_schema j) ↔ body_ok j.
Proof.
  split.
  - intros [res Hres]. destruct j as [ | | | | | | fs ]; try discriminate. simpl in Hres.
    destruct (field fs "items") as [ | | | | | l | ] eqn:Ei; try discriminate. simpl in Hres.
    destruct (mapM ApprovalItem_schema l) as [ items | ] eqn:El; [ | discriminate ].
    simpl in Hres. exists fs, l. split_and!; try done.
    + assert (Hs : is_Some (mapM ApprovalItem_schema l)) by by eexists.
      apply mapM_is_Some in Hs. eapply Forall_impl; [ exact Hs | ].
      intros x Hx. by apply ApprovalItem_schema_ok.
    + destruct (field fs "policy") as [ | | | | p | | ]; try discriminate; [ by left | ].
      right. by exists p.
  - intros (fs & l & -> & Ei & Hall & Hp). simpl. rewrite Ei. simpl.
    assert (Hs : is_Some (mapM ApprovalItem_schema l)).
    { apply mapM_is_Some. eapply Forall_impl; [ exact Hall | ].
      intros x Hx. by apply ApprovalItem_schema_ok. }
    destruct Hs as [items ->]. simpl.
    destruct Hp as [ -> | (p & ->) ]; by eexists.
Qed.

(** C4 (amended): [submit] creates a PENDING record, with no decision yet,
    exactly when the body matches the schema: every item is well formed (in
    particular has a non-empty text) and [policy] is absent or a string;
    otherwise it replies with a validation error (status 400) and stores
    nothing. A body with an item whose text is empty is rejected. The schema
    sets no minimum on the number of items: an empty [items] array is
    accepted. *)
Theorem submit_accepts_exactly_schema_bodies
    (body : json) (rnd ts : string) (approvals : Store) :
  (body_ok body →
   ∃ items policy,
     submit_schema body = Some (items, policy)
     ∧ approval_submit body rnd ts approvals =
       (ok ("appr_" +:+ rnd, PENDING),
        <["appr_" +:+ rnd := mkRecord ("appr_" +:+ rnd) PENDING policy items [] ts]> approvals))
  ∧ (¬ body_ok body → approval_submit body rnd ts approvals = (bad zod_message 400, approvals))
  ∧ (∀ fs l item_fs,
       body = JObj fs → field fs "items" = JArr l →
       JObj item_fs ∈ l → field item_fs "text" = JStr "" →
       ¬ body_ok body)
  ∧ (∀ fs, body = JObj fs → field fs "items" = JArr [] → field fs "policy" = JUndef →
       body_ok body).
Proof.
  split_and!.
  - intros Hok. apply submit_schema_ok in Hok as [[items policy] Hs].
    exists items, policy. split; [ done | ]. unfold approval_submit. by rewrite Hs.
  - intros Hno. unfold approval_submit.
    destruct (submit_schema body) as [ [items policy] | ] eqn:Hs; [ | done ].
    exfalso. apply Hno, submit_schema_ok. by eexists.
  - intros fs l item_fs -> Hitems Hin Htext (fs' & l' & [= <-] & Hitems' & Hall & _).
    rewrite Hitems in Hitems'. injection Hitems' as <-.
    rewrite Forall_forall in Hall. specialize (Hall _ Hin).
    destruct Hall as (fs2 & platform & kind & text & [= <-] & _ & _ & _ & Et & Hne & _).
    rewrite Htext in Et. injection Et as <-. by apply Hne.
  - intros fs -> Hitems Hpolicy. exists fs, []. split_and!; try done. by left.
Qed.

(** *** More on decisions *)

(** Index [i] of the record has a decision. *)
Definition decided (r : ApprovalRecord) (i : nat) : Prop :=
  ∃ d, a_decisions r !! i = Some (Some d).

(** Any decision calls, on any records, one after the other. *)
Definition decide_all (calls : list (string * json * string)) (approvals : Store) : Store :=
  foldl (λ st '(id, body, ts), (approval_decision id body ts st).2) approvals calls.


Lemma array_set_twice {A} (a : list (option A)) i x y :
  array_set (array_set a i x) i y = array_set a i y.
Proof.
  unfold array_set at 1. rewrite decide_True by (rewrite array_set_length; lia).
  unfold array_set. case_decide.
  - by rewrite list_insert_insert_eq.
  - rewrite insert_app_r_alt by lia. f_equal.
    rewrite insert_app_r_alt by (rewrite length_replicate; lia).
    rewrite length_replicate. by replace (i - length a - (i - length a)) with 0 by lia.
Qed.

Lemma decisions_set_twice a index d1 d2 :
  decisions_set (decisions_set a index d1) index d2 = decisions_set a index d2.
Proof. unfold decisions_set. case_decide; [ apply array_set_twice | done ]. Qed.


(** A decision call leaves every record in place, and on each record it
    leaves the id, policy, items and creation time, keeps the array of
    decisions at least as long, and keeps every index that had a decision
    decided. *)
Lemma approval_decision_keeps id0 body ts (approvals : Store) id r :
  approvals !! id = Some r →
  ∃ r', (approval_decision id0 body ts approvals).2 !! id = Some r'
    ∧ a_id r' = a_id r ∧ a_policy r' = a_policy r
    ∧ a_items r' = a_items r ∧ a_createdAt r' = a_createdAt r
    ∧ length (a_decisions r) ≤ length (a_decisions r')
    ∧ ∀ i, decided r i → decided r' i.
Proof.
  intros Hr. unfold approval_decision.
  destruct (approvals !! id0) as [ r0 | ] eqn:Hr0; [ | by exists r ].
  destruct (decision_schema body) as [ [[index decision] note] | ]; [ | by exists r ].
  simpl. destruct (decide (id0 = id)) as [ -> | Hne ].
  - rewrite Hr in Hr0. injection Hr0 as <-. rewrite lookup_insert_eq.
    eexists. split; [ reflexivity | ]. simpl. split_and!; try done.
    + unfold decisions_set. case_decide; [ rewrite array_set_length; lia | done ].
    + intros i (d & Hd). unfold decided. simpl. unfold decisions_set.
      case_decide; [ | by exists d ].
      destruct (decide (Z.to_nat index = i)) as [ <- | Hi ].
      * eexists. apply array_set_lookup.
      * exists d. rewrite array_set_lookup_ne; [ done | done | by eapply lookup_lt_Some ].
  - rewrite lookup_insert_ne by done. by exists r.
Qed.

(** Deciding an index again replaces the earlier decision: the reply and the
    store are what the later call alone would give. *)
Theorem redeciding_replaces
    (id : string) (body1 body2 : json) (ts1 ts2 : string) (approvals : Store)
    (index : Z) (decision1 decision2 : string) (note1 note2 : option string) :
  is_Some (approvals !! id) →
  decision_schema body1 = Some (index, decision1, note1) →
  decision_schema body2 = Some (index, decision2, note2) →
  approval_decision id body2 ts2 (approval_decision id body1 ts1 approvals).2
  = approval_decision id body2 ts2 approvals.
Proof.
  intros [r Hr] Hb1 Hb2.
  rewrite (approval_decision_accepted _ _ ts1 _ _ _ _ _ Hr Hb1). simpl.
  rewrite (approval_decision_accepted _ _ ts2 _ _ _ _ _ Hr Hb2).
  erewrite approval_decision_accepted; [ | apply lookup_insert_eq | exact Hb2 ].
  simpl. rewrite decisions_set_twice, insert_insert_eq. reflexivity.
Qed.

Lemma redeciding_replaces_witness :
  approval_decision "appr_x" (decision_body 0 "REJECTED") "t2"
    (approval_decision "appr_x" (decision_body 0 "APPROVED") "t1"
       {[ "appr_x" := mkRecord "appr_x" PENDING "generic" [mkItem "x" "post" "hi" None] [] "t0" ]}).2
  = approval_decision "appr_x" (decision_body 0 "REJECTED") "t2"
      {[ "appr_x" := mkRecord "appr_x" PENDING "generic" [mkItem "x" "post" "hi" None] [] "t0" ]}.
Proof.
  apply (redeciding_replaces "appr_x" _ _ "t1" "t2" _ 0%Z "APPROVED" "REJECTED" None None).
  - eexists. apply lookup_singleton_eq.
  - reflexivity.
  - reflexivity.
Defined.

(** What [submit] stores is what [get] gives back: a PENDING record with the
    parsed items, the policy (["generic"] when the body has none), no
    decision and the time of the call; the records under other ids are as
    before. *)
Theorem submit_then_get (body : json) (rnd ts : string) (approvals : Store) :
  body_ok body →
  ∃ items policy,
    submit_schema body = Some (items, policy)
    ∧ approval_get ("appr_" +:+ rnd) (approval_submit body rnd ts approvals).2
      = ok (mkRecord ("appr_" +:+ rnd) PENDING policy items [] ts)
    ∧ ∀ id, id ≠ "appr_" +:+ rnd →
        approval_get id (approval_submit body rnd ts approvals).2 = approval_get id approvals.
Proof.
  intros Hok. apply submit_schema_ok in Hok as [[items policy] Hs].
  exists items, policy. split; [ done | ]. unfold approval_submit, approval_get.
  rewrite Hs. simpl. split.
  - by rewrite lookup_insert_eq.
  - intros id Hne. by rewrite lookup_insert_ne.
Qed.

(** Whatever decision calls follow, a record stays under its id with its
    id, policy, items and creation time; its array of decisions never gets
    shorter, and an index that has a decision keeps one. *)
Theorem decisions_are_kept
    (calls : list (string * json * string)) (approvals : Store) (id : string)
    (r : ApprovalRecord) :
  approvals !! id = Some r →
  ∃ r', decide_all calls approvals !! id = Some r'
    ∧ a_id r' = a_id r ∧ a_policy r' = a_policy r
    ∧ a_items r' = a_items r ∧ a_createdAt r' = a_createdAt r
    ∧ length (a_decisions r) ≤ length (a_decisions r')
    ∧ ∀ i, decided r i → decided r' i.
Proof.
  revert approvals r. induction calls as [ | [[id0 body] ts] calls IH ]; intros approvals r Hr.
  - exists r. by split_and!.
  - destruct (approval_decision_keeps id0 body ts approvals id r Hr)
      as (r1 & Hr1 & Hid1 & Hpol1 & Hitems1 & Hcr1 & Hlen1 & Hdec1).
    destruct (IH _ _ Hr1) as (r' & Hr' & Hid & Hpol & Hitems & Hcr & Hlen & Hdec).
    exists r'. split_and!; try congruence; [ exact Hr' | lia | auto ].
Qed.

Lemma decisions_are_kept_witness :
  ∃ r', decide_all [("appr_x", decision_body 1 "REJECTED", "t2"); ("appr_y", JNull, "t3")]
          {[ "appr_x" := mkRecord "appr_x" DECIDED "generic" [mkItem "x" "post" "hi" None]
                           [Some (mkDecision "APPROVED" None "t1")] "t0" ]}
        !! "appr_x" = Some r'
    ∧ a_id r' = "appr_x" ∧ a_policy r' = "generic"
    ∧ a_items r' = [mkItem "x" "post" "hi" None] ∧ a_createdAt r' = "t0"
    ∧ 1 ≤ length (a_decisions r')
    ∧ ∀ i, decided (mkRecord "appr_x" DECIDED "generic" [mkItem "x" "post" "hi" None]
                      [Some (mkDecision "APPROVED" None "t1")] "t0") i →
           decided r' i.
Proof.
  apply (decisions_are_kept
           [("appr_x", decision_body 1 "REJECTED", "t2"); ("appr_y", JNull, "t3")]
           _ "appr_x"
           (mkRecord "appr_x" DECIDED "generic" [mkItem "x" "post" "hi" None]
              [Some (mkDecision "APPROVED" None "t1")] "t0")).
  apply lookup_singleton_eq.
Defined.

(** Decision calls neither create nor delete a record. *)
Theorem decisions_keep_the_ids (calls : list (string * json * string)) (approvals : Store) :
  dom (decide_all calls approvals) = dom approvals.
Proof.
  revert approvals. induction calls as [ | [[id0 body] ts] calls IH ]; intros approvals;
    [ done | ].
  simpl. rewrite IH. unfold approval_decision.
  destruct (approvals !! id0) as [ r | ] eqn:Hr; [ | done ].
  destruct (decision_schema body) as [ [[index decision] note] | ]; [ | done ].
  simpl. rewrite dom_insert_L. apply subseteq_union_1_L.
  by apply singleton_subseteq_l, elem_of_dom_2 with r.
Qed.

(** Decisions for indices of [items] only, on a record whose array of
    decisions is no longer than [items]: the array stays within [items],
    the indices decided are decided at the end, and the status is the one
    computed from the final array. *)
Lemma decide_each_within id ts : ∀ indices (approvals : Store) r,
  approvals !! id = Some r →
  length (a_decisions r) ≤ length (a_items r) →
  (∀ i, i ∈ indices → i < length (a_items r)) →
  (Z.of_nat (length (a_items r)) ≤ max_index + 1)%Z →
  ∃ r', decide_each id indices ts approvals !! id = Some r'
    ∧ a_items r' = a_items r
    ∧ length (a_decisions r') ≤ length (a_items r)
    ∧ (∀ i, i ∈ indices ∨ decided r i → decided r' i)
    ∧ (indices ≠ [] →
       a_status r' = if includes_undefined (a_decisions r') then PENDING else DECIDED).
Proof.
  induction indices as [ | i rest IH ]; intros approvals r Hr Hlen Hin Hmax.
  - exists r. split_and!; try done. intros i [ Hi | Hi ]; [ by apply elem_of_nil in Hi | done ].
  - assert (Hi : i < length (a_items r)) by (apply Hin; by left).
    simpl.
    rewrite (approval_decision_accepted _ _ ts _ _ _ _ _ Hr
               (decision_body_parses (Z.of_nat i) (Nat2Z.is_nonneg i))).
    simpl. unfold decisions_set. rewrite decide_True by lia. rewrite Nat2Z.id.
    set (d := mkDecision "APPROVED" None ts).
    set (r1 := mkRecord _ _ _ _ _ _).
    destruct (IH (<[id := r1]> approvals) r1) as (r' & Hr' & Hitems & Hlen' & Hdec & Hst).
    { apply lookup_insert_eq. }
    { subst r1. simpl. rewrite array_set_length. lia. }
    { intros j Hj. apply Hin. by right. }
    { exact Hmax. }
    exists r'. split_and!; try done.
    + intros j Hj. apply Hdec.
      destruct (decide (j = i)) as [ -> | Hne ].
      * right. eexists. subst r1. simpl. apply array_set_lookup.
      * destruct Hj as [ Hj | (dj & Hdj) ].
        -- apply elem_of_cons in Hj as [ -> | Hj ]; [ done | by left ].
        -- right. exists dj. subst r1. simpl.
           rewrite array_set_lookup_ne; [ done | done | by eapply lookup_lt_Some ].
    + intros _. destruct rest as [ | i' rest ]; [ | by apply Hst ].
      simpl in Hr'. rewrite lookup_insert_eq in Hr'. by injection Hr' as <-.
Qed.

(** On a fresh record with at least one item, decisions for every index of
    [items] and for no other, in any order and with repetitions, end with
    the status DECIDED and a decision at every index. *)
Theorem deciding_every_index_gives_DECIDED
    (id ts : string) (indices : list nat) (approvals : Store) (r : ApprovalRecord) :
  approvals !! id = Some r →
  a_decisions r = [] →
  1 ≤ length (a_items r) →
  (Z.of_nat (length (a_items r)) ≤ max_index + 1)%Z →
  (∀ i, i ∈ indices ↔ i < length (a_items r)) →
  ∃ r', decide_each id indices ts approvals !! id = Some r'
    ∧ a_items r' = a_items r
    ∧ a_status r' = DECIDED
    ∧ all_decided r'.
Proof.
  intros Hr Hnil Hone Hmax Hcover.
  destruct (decide_each_within id ts indices approvals r Hr)
    as (r' & Hr' & Hitems & Hlen & Hdec & Hst).
  { rewrite Hnil. simpl. lia. }
  { intros i Hi. by apply Hcover. }
  { exact Hmax. }
  assert (Hall : ∀ i, i < length (a_items r) → decided r' i).
  { intros i Hi. apply Hdec. left. by apply Hcover. }
  assert (Hfull : includes_undefined (a_decisions r') = false).
  { apply includes_undefined_false. intros i Hi. apply Hall. lia. }
  exists r'. split_and!; try done.
  - rewrite Hst, Hfull; [ done | ].
    intros ->. assert (H0 : 0 ∈ @nil nat) by (apply Hcover; lia). by apply elem_of_nil in H0.
  - intros i Hi. apply Hall. by rewrite <- Hitems.
Qed.

Lemma deciding_every_index_gives_DECIDED_witness :
  ∃ r', decide_each "appr_x" [1; 0; 1] "t1"
          {[ "appr_x" := mkRecord "appr_x" PENDING "generic"
                           [mkItem "x" "post" "hi" None; mkItem "x" "ad" "yo" None] [] "t0" ]}
        !! "appr_x" = Some r'
    ∧ a_items r' = [mkItem "x" "post" "hi" None; mkItem "x" "ad" "yo" None]
    ∧ a_status r' = DECIDED
    ∧ all_decided r'.
Proof.
  apply (deciding_every_index_gives_DECIDED "appr_x" "t1" [1; 0; 1] _
           (mkRecord "appr_x" PENDING "generic"
              [mkItem "x" "post" "hi" None; mkItem "x" "ad" "yo" None] [] "t0")).
  - apply lookup_singleton_eq.
  - reflexivity.
  - simpl. lia.
  - vm_compute. discriminate.
  - intros i. simpl. rewrite !elem_of_cons, elem_of_nil. lia.
Defined.

(** *** The reply of a decision, as the client gets it *)

(** Whether the engine can serialise the reply [{ ok:true, status, decisions }].
    The text has an entry for every slot of [decisions], the empty ones
    included, so a long array does not fit. *)
Variable json_fits : ApprovalStatus * list (option Decision) -> bool.

(** [app.post('/api/approval/:id/decision', ...)] with its last line
    [ok(res,{ status:r.status, decisions:r.decisions })] carried out. The
    record is written before the reply is serialised: when [res.json]
    throws, the client gets a 500 and the write stays. An error reply of
    the handler is short and is always sent. *)
Definition decision_route (id : string) (body : json) (ts : string) (approvals : Store)
    : Sent (ApprovalStatus * list (option Decision)) * Store :=
  match approval_decision id body ts approvals with
  | (ok data, approvals') =>
      (if json_fits data then sent (ok data) else failed_500, approvals')
  | (bad error code, approvals') => (sent (bad error code), approvals')
  end.

Lemma decision_route_accepted id body ts (approvals : Store) r index decision note :
  approvals !! id = Some r →
  decision_schema body = Some (index, decision, note) →
  let decisions := decisions_set (a_decisions r) index (mkDecision decision note ts) in
  let status := if includes_undefined decisions then PENDING else DECIDED in
  decision_route id body ts approvals =
    (if json_fits (status, decisions) then sent (ok (status, decisions)) else failed_500,
     <[id := mkRecord (a_id r) status (a_policy r) (a_items r) decisions (a_createdAt r)]>
       approvals).
Proof.
  intros Hr Hb. unfold decision_route.
  by rewrite (approval_decision_accepted _ _ _ _ _ _ _ _ Hr Hb).
Qed.

(** C3 (amended): the handler has no range check. A decision whose index is
    at or beyond [items.length] is never refused for that: the record is
    written back under its id with its id, policy, items and creation time.
    For an index up to 2^32 - 2 (an array index) the decision is stored at
    [index]: the slots the array had are kept, the array grows to
    [index + 1] slots where it was shorter, and the slots in between are
    empty. For an index above 2^32 - 2 the array of decisions is left as it
    was. The client gets the reply [ok] with the status and the decisions of
    the record as written, or, when this reply cannot be serialised, a 500;
    the record is written in both cases. *)
Theorem decision_beyond_items_is_recorded
    (id : string) (body : json) (ts : string) (approvals : Store) (r : ApprovalRecord)
    (index : Z) (decision : string) (note : option string) :
  approvals !! id = Some r →
  decision_schema body = Some (index, decision, note) →
  (Z.of_nat (length (a_items r)) ≤ index)%Z →
  let d := mkDecision decision note ts in
  ∃ r',
    (decision_route id body ts approvals).2 = <[id := r']> approvals
    ∧ a_id r' = a_id r ∧ a_policy r' = a_policy r
    ∧ a_items r' = a_items r ∧ a_createdAt r' = a_createdAt r
    ∧ ((index ≤ max_index)%Z →
       a_decisions r' !! Z.to_nat index = Some (Some d)
       ∧ length (a_decisions r') = length (a_decisions r) `max` S (Z.to_nat index)
       ∧ (∀ j, j ≠ Z.to_nat index → j < length (a_decisions r) →
               a_decisions r' !! j = a_decisions r !! j)
       ∧ (∀ j, length (a_decisions r) ≤ j → j < Z.to_nat index →
               a_decisions r' !! j = Some None))
    ∧ ((max_index < index)%Z → a_decisions r' = a_decisions r)
    ∧ (decision_route id body ts approvals).1 =
        (if json_fits (a_status r', a_decisions r')
         then sent (ok (a_status r', a_decisions r'))
         else failed_500).
Proof.
  intros Hr Hb Hge d.
  rewrite (decision_route_accepted _ _ _ _ _ _ _ _ Hr Hb). fold d.
  eexists. split; [ reflexivity | ]. cbn [a_id a_policy a_items a_createdAt a_decisions a_status].
  split_and!; try done.
  - intros Hmax. unfold decisions_set. rewrite decide_True by done.
    split_and!.
    + apply array_set_lookup.
    + apply array_set_length.
    + intros j Hne Hj. by apply array_set_lookup_ne.
    + intros j Hj Hi. by apply array_set_hole.
  - intros Hmax. unfold decisions_set. rewrite decide_False by lia. done.
Qed.


End Handlers.

Lemma submit_then_get_witness :
  ∃ items policy,
    submit_schema (λ _, true) (JObj [("items", JArr [item_json "x" "post" "hi"])])
      = Some (items, policy)
    ∧ approval_get ("appr_" +:+ "k3x")
        (approval_submit (λ _, true) (JObj [("items", JArr [item_json "x" "post" "hi"])])
           "k3x" "t0" ∅).2
      = ok (mkRecord ("appr_" +:+ "k3x") PENDING policy items [] "t0")
    ∧ ∀ id, id ≠ "appr_" +:+ "k3x" →
        approval_get id
          (approval_submit (λ _, true) (JObj [("items", JArr [item_json "x" "post" "hi"])])
             "k3x" "t0" ∅).2
        = approval_get id ∅.
Proof.
  apply (submit_then_get (λ _, true) (JObj [("items", JArr [item_json "x" "post" "hi"])])).
  apply submit_schema_ok. vm_compute. by eexists.
Defined.

Lemma submit_accepts_exactly_schema_bodies_witness :
  approval_submit (λ _, true) (JObj [("items", JArr [])]) "k3x" "t0" ∅ =
  (ok ("appr_k3x", PENDING),
   <["appr_k3x" := mkRecord "appr_k3x" PENDING "generic" [] [] "t0"]> ∅).
Proof.
  destruct (submit_accepts_exactly_schema_bodies (λ _, true) (JObj [("items", JArr [])])
              "k3x" "t0" ∅) as (Hcreate & _ & _ & Hempty).
  destruct (Hcreate (Hempty _ eq_refl eq_refl eq_refl)) as (items & policy & Hs & Hr).
  injection Hs as <- <-. exact Hr.
Defined.

Lemma decision_beyond_items_is_recorded_witness :
  let fits := λ data : ApprovalStatus * list (option Decision), length data.2 <=? 1000 in
  let approvals : gmap string ApprovalRecord :=
    {[ "appr_x" := mkRecord "appr_x" PENDING "generic" [mkItem "x" "post" "hi" None] [] "t0" ]} in
  ∃ r',
    (decision_route fits "appr_x" (decision_body 3 "APPROVED") "t1" approvals).2
      = <[ "appr_x" := r' ]> approvals
    ∧ a_id r' = "appr_x" ∧ a_policy r' = "generic"
    ∧ a_items r' = [mkItem "x" "post" "hi" None] ∧ a_createdAt r' = "t0"
    ∧ ((3 ≤ max_index)%Z →
       a_decisions r' !! Z.to_nat 3 = Some (Some (mkDecision "APPROVED" None "t1"))
       ∧ length (a_decisions r') = 0 `max` S (Z.to_nat 3)
       ∧ (∀ j, j ≠ Z.to_nat 3 → j < 0 → a_decisions r' !! j = @nil (option Decision) !! j)
       ∧ (∀ j, 0 ≤ j → j < Z.to_nat 3 → a_decisions r' !! j = Some None))
    ∧ ((max_index < 3)%Z → a_decisions r' = [])
    ∧ (decision_route fits "appr_x" (decision_body 3 "APPROVED") "t1" approvals).1 =
        (if fits (a_status r', a_decisions r')
         then sent (ok (a_status r', a_decisions r'))
         else failed_500).
Proof.
  intros fits approvals.
  apply (decision_beyond_items_is_recorded fits "appr_x" (decision_body 3 "APPROVED") "t1"
           approvals
           (mkRecord "appr_x" PENDING "generic" [mkItem "x" "post" "hi" None] [] "t0")
           3%Z "APPROVED" None).
  - apply lookup_singleton_eq.
  - reflexivity.
  - simpl. lia.
Defined.

(** C3 (counterexample): a record with one item, and a decision for index 3.
    The call is not rejected: the reply is [ok], and the stored record has
    changed (its decisions array now has four slots). *)
Lemma decision_index_beyond_items_not_rejected :
  length (a_items (mkRecord "appr_x" PENDING "generic" [mkItem "x" "post" "hi" None] [] "t0")) = 1
  ∧ decision_schema (decision_body 3 "APPROVED") = Some (3%Z, "APPROVED", None)
  ∧ approval_decision "appr_x" (decision_body 3 "APPROVED") "t1"
      {[ "appr_x" := mkRecord "appr_x" PENDING "generic" [mkItem "x" "post" "hi" None] [] "t0" ]} =
    (ok (PENDING, [None; None; None; Some (mkDecision "APPROVED" None "t1")]),
     {[ "appr_x" := mkRecord "appr_x" PENDING "generic" [mkItem "x" "post" "hi" None]
                      [None; None; None; Some (mkDecision "APPROVED" None "t1")] "t0" ]}).
Proof. split_and!; vm_compute; reflexivity. Qed.

(** C4 (counterexample): a body whose [items] is the empty array is
    accepted, and a PENDING record without items is stored. *)
Lemma submit_empty_items_not_rejected :
  approval_submit (λ _, true) (JObj [("items", JArr [])]) "k3x" "t0" ∅ =
  (ok ("appr_k3x", PENDING),
   {[ "appr_k3x" := mkRecord "appr_k3x" PENDING "generic" [] [] "t0" ]}).
Proof. vm_compute. reflexivity. Qed.

(** The other way round: one item, decided, and a decision for index 2
    before it. Every index of [items] has a decision, and the status is
    PENDING because of the hole at index 1. *)
Example decided_item_with_hole_is_PENDING :
  ∃ r,
    decide_each "appr_x" [2; 0] "t1"
      {[ "appr_x" := mkRecord "appr_x" PENDING "generic" [mkItem "x" "post" "hi" None] [] "t0" ]}
    !! "appr_x" = Some r
    ∧ a_decisions r = [Some (mkDecision "APPROVED" None "t1"); None;
                       Some (mkDecision "APPROVED" None "t1")]
    ∧ a_status r = PENDING
    ∧ all_decided r.
Proof.
  eexists. split; [ vm_compute; reflexivity | ]. simpl. split_and!; try reflexivity.
  intros i Hi. simpl in Hi. assert (i = 0) as -> by lia. by eexists.
Qed.

(** The end-to-end case of the specification: one item, one decision. *)
Example submit_then_decide_single_item :
  let submitted := approval_submit (λ _, true)
                     (JObj [("items", JArr [item_json "x" "post" "hi"]); ("policy", JStr "generic")])
                     "k3x" "t0" ∅ in
  let decided := approval_decision "appr_k3x" (decision_body 0 "APPROVED") "t1" submitted.2 in
  ∃ r, approval_get "appr_k3x" decided.2 = ok r ∧ a_status r = DECIDED.
Proof. eexists. split; vm_compute; reflexivity. Qed.

End Approvals.

(** ** server.js: posting queue and cron publisher *)

Module Scheduler.
Import JS Zod Express Adapters.

Inductive JobStatus := QUEUED | POSTING | POSTED | FAILED.

#[export] Instance JobStatus_eq_dec : EqDecision JobStatus.
Proof. solve_decision. Defined.

(** A job of [schedules]: the fields of the request body, [id] and
    [status], and the fields the publisher adds. *)
Record Job := mkJob {
  j_id : string;
  j_platforms : list string;
  j_text : string;
  j_whenISO : option string;
  j_mediaUrls : option (list string);
  j_status : JobStatus;
  j_error : option string;
  j_postedAt : option string
}.

Definition set_status (st : JobStatus) (job : Job) : Job :=
  mkJob (j_id job) (j_platforms job) (j_text job) (j_whenISO job) (j_mediaUrls job)
        st (j_error job) (j_postedAt job).

Definition set_error (m : string) (job : Job) : Job :=
  mkJob (j_id job) (j_platforms job) (j_text job) (j_whenISO job) (j_mediaUrls job)
        (j_status job) (Some m) (j_postedAt job).

Definition set_postedAt (ts : string) (job : Job) : Job :=
  mkJob (j_id job) (j_platforms job) (j_text job) (j_whenISO job) (j_mediaUrls job)
        (j_status job) (j_error job) (Some ts).

(** [s.toLowerCase()] on the strings of the embedding, whose characters are
    the code units up to U+00FF: the letters A-Z, and the letters U+00C0 to
    U+00DE of Latin-1 (all but the sign U+00D7), have their lower-case form
    32 places further; every other character of this range is kept. A code
    unit above U+00FF (the Kelvin sign U+212A, which lowers to k) is not a
    character of these strings. *)
Definition lower_char (c : ascii) : ascii :=
  let n := nat_of_ascii c in
  if ((65 <=? n) && (n <=? 90))
     || ((192 <=? n) && (n <=? 222) && negb (n =? 215))
  then ascii_of_nat (n + 32) else c.

Fixpoint toLowerCase (s : string) : string :=
  match s with
  | EmptyString => EmptyString
  | String c s' => String (lower_char c) (toLowerCase s')
  end.

(** The input the publisher builds for every platform of a job:
    [{ text: job.text, mediaUrl: job.mediaUrls?.[0], tokens: {}, account: {} }] *)
Definition input_of (job : Job) : NormalizedPost :=
  mkPost (Some (j_text job)) (j_mediaUrls job ≫= head) None None None
         (Some ∅) (Some ∅) None None None.

(** The state the publisher works on: the array [schedules] and the log of
    the requests sent through [http]. Jobs are only ever appended, so a job
    is named by its index. *)
Record World := mkWorld {
  schedules : list Job;
  requests : list Request
}.

(** Where one run of the cron callback stands, between two steps:
    - [Scan now i]: at the head of the [for] loop, about to look at
      [schedules[i]];
    - [Fanout now i rest]: inside the [try] block for job [i], with the
      platforms [rest] still to be posted to;
    - [Finished]: the loop is over. *)
Inductive Thread :=
  | Scan (now : Z) (i : nat)
  | Fanout (now : Z) (i : nat) (rest : list string)
  | Finished.

#[export] Instance Thread_eq_dec : EqDecision Thread.
Proof. solve_decision. Defined.

(** What a step of the callback does. *)
Inductive Action :=
  | Skip (i : nat)
  | Enter (i : nat)
  | Call (i : nat) (platform : string) (outcome : Error + Result)
  | Posted (i : nat)
  | Stop.

(** *** Values used in the examples *)

(** [new Date(s).getTime()] on two dates; every other string of the
    examples, the empty one included, is not a date. *)
Definition demo_dates (s : string) : option Z :=
  if String.eqb s "2024-01-01T00:00:00.000Z" then Some 1704067200000%Z
  else if String.eqb s "2030-01-01T00:00:00.000Z" then Some 1893456000000%Z
  else None.

Definition demo_clock : nat -> string := λ _, "2025-06-01T12:00:00.000Z".

(** 2025-06-01T12:00:00.000Z in milliseconds. *)
Definition demo_now : Z := 1748779200000%Z.

Definition snapchat_error : Error :=
  mkError "snapchat_posting_requires_marketing_api_and_creatives" (Some 501%Z).

Definition two_platform_job : Job :=
  mkJob "job_a" ["Snapchat"; "constructor"] "hi" None None QUEUED None None.

#[local] Arguments postToPlatform : simpl never.

Section Publisher.

(** Which strings the schema library takes for URLs. *)
Variable is_url : string -> bool.

(** [new Date(s).getTime()]: the time in milliseconds, [None] for [NaN]
    (a string that is not a date). *)
Variable parse_date : string -> option Z.

(** The network the adapters talk to. *)
Variable net : Net.

(** [z.object({ platforms:z.array(z.string()), text:z.string(),
      whenISO:z.string().optional(), mediaUrls:z.array(z.string().url()).optional() })] *)
Definition post_schema : Schema (list string * string * option string * option (list string)) :=
  fun j =>
    match j with
    | JObj fs =>
        platforms ← z_array z_string (field fs "platforms");
        text ← z_string (field fs "text");
        whenISO ← z_optional z_string (field fs "whenISO");
        mediaUrls ← z_optional (z_array (z_url is_url)) (field fs "mediaUrls");
        Some (platforms, text, whenISO, mediaUrls)
    | _ => None
    end.

(** [app.post('/api/post', ...)]; [rnd] is the random part of the id. *)
Definition api_post (body : json) (rnd : string) (w : World) : Reply Job * World :=
  match post_schema body with
  | None => (bad zod_message 400, w)
  | Some (platforms, text, whenISO, mediaUrls) =>
      let job := mkJob ("job_" +:+ rnd) platforms text whenISO mediaUrls QUEUED None None in
      (ok job, mkWorld (schedules w ++ [job]) (requests w))
  end.

(** An item of [/api/schedule/bulk]:
    [z.object({ platforms:z.array(z.string()), text:z.string(), whenISO:z.string() })] *)
Definition bulk_item_schema : Schema (list string * string * string) := fun j =>
  match j with
  | JObj fs =>
      platforms ← z_array z_string (field fs "platforms");
      text ← z_string (field fs "text");
      whenISO ← z_string (field fs "whenISO");
      Some (platforms, text, whenISO)
  | _ => None
  end.

Definition bulk_schema : Schema (list (list string * string * string)) := fun j =>
  match j with
  | JObj fs => z_array bulk_item_schema (field fs "items")
  | _ => None
  end.

(** [app.post('/api/schedule/bulk', ...)]; [rnd k] is the random part of the
    id of the [k]-th item. *)
Definition api_schedule_bulk (body : json) (rnd : nat -> string) (w : World)
    : Reply (list Job) * World :=
  match bulk_schema body with
  | None => (bad zod_message 400, w)
  | Some items =>
      let created :=
        imap (λ k '(platforms, text, whenISO),
                mkJob ("job_" +:+ rnd k) platforms text (Some whenISO) None QUEUED None None)
             items in
      (ok created, mkWorld (schedules w ++ created) (requests w))
  end.

(** [!job.whenISO || new Date(job.whenISO).getTime() <= now] *)
Definition due (job : Job) (now : Z) : bool :=
  match j_whenISO job with
  | None => true
  | Some s =>
      if String.eqb s "" then true
      else match parse_date s with
           | Some t => (t <=? now)%Z
           | None => false
           end
  end.

Definition update_job (i : nat) (f : Job -> Job) (w : World) : World :=
  mkWorld (alter f i (schedules w)) (requests w).

(** One step of the cron callback, from one suspension point to the next.
    [ts] is [new Date().toISOString()] at that moment. *)
Definition tick_step (ts : string) (w : World) (th : Thread) : World * Thread * Action :=
  match th with
  | Finished => (w, Finished, Stop)
  | Scan now i =>
      match schedules w !! i with
      | None => (w, Finished, Stop)
      | Some job =>
          if decide (j_status job ≠ QUEUED) then (w, Scan now (S i), Skip i)
          else if due job now
               then (update_job i (set_status POSTING) w, Fanout now i (j_platforms job), Enter i)
               else (w, Scan now (S i), Skip i)
      end
  | Fanout now i [] =>
      (update_job i (λ job, set_postedAt ts (set_status POSTED job)) w, Scan now (S i), Posted i)
  | Fanout now i (platform :: rest) =>
      match schedules w !! i with
      | None => (w, Finished, Stop)
      | Some job =>
          match postToPlatform (toLowerCase platform) (input_of job) net (requests w) with
          | (inr res, log) =>
              (mkWorld (schedules w) log, Fanout now i rest,
               Call i (toLowerCase platform) (inr res))
          | (inl e, log) =>
              (update_job i (λ job, set_error (e_message e) (set_status FAILED job))
                 (mkWorld (schedules w) log),
               Scan now (S i),
               Call i (toLowerCase platform) (inl e))
          end
      end
  end.

(** The callback run on its own for [fuel] steps; [clock k] is the time of
    the [k]-th step. The actions are listed oldest first. *)
Fixpoint run_thread (fuel : nat) (clock : nat -> string) (k : nat)
    (w : World) (th : Thread) : list Action * World * Thread :=
  match fuel with
  | 0 => ([], w, th)
  | S fuel' =>
      match th with
      | Finished => ([], w, Finished)
      | _ =>
          let '(w1, th1, a) := tick_step (clock k) w th in
          let '(acts, w2, th2) := run_thread fuel' clock (S k) w1 th1 in
          (a :: acts, w2, th2)
      end
  end.

(** The job an action is about. *)
Definition action_job (a : Action) : option nat :=
  match a with
  | Skip i | Enter i | Call i _ _ | Posted i => Some i
  | Stop => None
  end.


(** *** The server as a whole

    Runs of the cron callback may overlap: a run is suspended at every
    [await], and other runs and request handlers go on meanwhile. The state
    is the world and the runs in progress. *)
Record Sys := mkSys {
  world : World;
  threads : list Thread
}.

Inductive Event :=
  | Cron (now : Z)                                 (* the timer fires: a new run starts *)
  | Run (k : nat) (ts : string)                    (* run [k] takes its next step *)
  | Post (body : json) (rnd : string)              (* POST /api/post *)
  | Bulk (body : json) (rnd : nat -> string)       (* POST /api/schedule/bulk *)
  | Direct (platform : string) (input : NormalizedPost).  (* POST /api/adapters/:platform/post *)

Definition apply_event (s : Sys) (e : Event) : Sys :=
  match e with
  | Cron now => mkSys (world s) (threads s ++ [Scan now 0])
  | Run k ts =>
      match threads s !! k with
      | None => s
      | Some th =>
          let '(w, th', _) := tick_step ts (world s) th in
          mkSys w (<[k := th']> (threads s))
      end
  | Post body rnd => mkSys (api_post body rnd (world s)).2 (threads s)
  | Bulk body rnd => mkSys (api_schedule_bulk body rnd (world s)).2 (threads s)
  | Direct platform input =>
      mkSys (mkWorld (schedules (world s))
                     (postToPlatform platform input net (requests (world s))).2)
            (threads s)
  end.

Definition run_events (s : Sys) (evs : list Event) : Sys := foldl apply_event s evs.

(** The server at start: [const schedules = []], no run in progress. *)
Definition init : Sys := mkSys (mkWorld [] []) [].

Definition status_at (s : Sys) (i : nat) : option JobStatus :=
  j_status <$> schedules (world s) !! i.

(** How many times job [i] enters POSTING along the events [evs]. *)
Fixpoint enters_POSTING (i : nat) (s : Sys) (evs : list Event) : nat :=
  match evs with
  | [] => 0
  | e :: evs' =>
      let s' := apply_event s e in
      (if decide (status_at s i ≠ Some POSTING ∧ status_at s' i = Some POSTING) then 1 else 0)
      + enters_POSTING i s' evs'
  end.

(** The run is at job [j] or further. *)
Definition thread_from (j : nat) (th : Thread) : Prop :=
  match th with
  | Scan _ i | Fanout _ i _ => j ≤ i
  | Finished => True
  end.

(** What a step of a run can do to [schedules] and to the run itself. *)
Inductive step_kind (w : World) (th : Thread) (w' : World) (th' : Thread) : Prop :=
  | step_quiet :
      schedules w' = schedules w →
      (∀ now i rest, th' = Fanout now i rest → ∃ rest0, th = Fanout now i rest0) →
      step_kind w th w' th'
  | step_enter now i job :
      th = Scan now i →
      schedules w !! i = Some job →
      j_status job = QUEUED →
      schedules w' = alter (set_status POSTING) i (schedules w) →
      th' = Fanout now i (j_platforms job) →
      step_kind w th w' th'
  | step_leave now i rest f st :
      th = Fanout now i rest →
      schedules w' = alter f i (schedules w) →
      (∀ job, j_status (f job) = st) →
      st = POSTED ∨ st = FAILED →
      th' = Scan now (S i) →
      step_kind w th w' th'.

(** The invariant of the server: a run that is inside the [try] block of a
    job has set that job to POSTING, and it is the only run there. *)
Definition owns (s : Sys) : Prop :=
  (∀ k now i rest, threads s !! k = Some (Fanout now i rest) → status_at s i = Some POSTING)
  ∧ (∀ k k' now i rest now' rest',
       threads s !! k = Some (Fanout now i rest) →
       threads s !! k' = Some (Fanout now' i rest') → k = k').

(** The moves of a status in one event; [None] is a job that does not exist
    yet. *)
Definition allowed (a b : option JobStatus) : Prop :=
  a = b
  ∨ (a = None ∧ b = Some QUEUED)
  ∨ (a = Some QUEUED ∧ b = Some POSTING)
  ∨ (a = Some POSTING ∧ (b = Some POSTED ∨ b = Some FAILED)).

Definition rank (a : option JobStatus) : nat :=
  match a with
  | None => 0
  | Some QUEUED => 1
  | Some POSTING => 2
  | Some POSTED | Some FAILED => 3
  end.

(** *** Due-ness *)


(** *** One run of the callback, on its own *)

Lemma schedules_update_job i f w :
  schedules (update_job i f w) !! i = f <$> schedules w !! i.
Proof. apply list_lookup_alter_eq. Qed.

Lemma schedules_update_job_ne i j f w :
  i ≠ j → schedules (update_job i f w) !! j = schedules w !! j.
Proof. intros Hne. by apply list_lookup_alter_ne. Qed.

Lemma length_update_job i f w :
  length (schedules (update_job i f w)) = length (schedules w).
Proof. apply length_alter. Qed.

Lemma run_thread_Finished fuel clock k w :
  run_thread fuel clock k w Finished = ([], w, Finished).
Proof. by destruct fuel. Qed.

Lemma run_thread_S fuel clock k w th :
  th ≠ Finished →
  run_thread (S fuel) clock k w th =
    let '(w1, th1, a) := tick_step (clock k) w th in
    let '(acts, w2, th2) := run_thread fuel clock (S k) w1 th1 in
    (a :: acts, w2, th2).
Proof. intros Hth. by destruct th. Qed.

(** Running [n1 + n2] steps is running [n1] steps and then [n2] more. *)
Lemma run_thread_add n1 n2 clock : ∀ k w th,
  run_thread (n1 + n2) clock k w th =
    let '(acts1, w1, th1) := run_thread n1 clock k w th in
    let '(acts2, w2, th2) := run_thread n2 clock (k + n1) w1 th1 in
    (acts1 ++ acts2, w2, th2).
Proof.
  induction n1 as [ | n1 IH ]; intros k w th.
  - simpl. replace (k + 0) with k by lia.
    by destruct (run_thread n2 clock k w th) as [[acts2 w2] th2].
  - destruct (decide (th = Finished)) as [ -> | Hth ].
    { rewrite !run_thread_Finished. simpl. by rewrite ?run_thread_Finished. }
    replace (S n1 + n2) with (S (n1 + n2)) by lia.
    rewrite !run_thread_S by done.
    destruct (tick_step (clock k) w th) as [[w1 th1] a].
    rewrite IH.
    destruct (run_thread n1 clock (S k) w1 th1) as [[acts1 w2] th2].
    replace (k + S n1) with (S k + n1) by lia.
    by destruct (run_thread n2 clock (S k + n1) w2 th2) as [[acts2 w3] th3].
Qed.

(** The [try] block of a job always comes to an end: from [Fanout] the run
    is back at the loop head after at most one step per platform and one
    more; it touches job [i] only, it starts no job, and it leaves job [i]
    POSTED or FAILED. *)
Lemma fanout_completes clock now i : ∀ platforms k w job,
  schedules w !! i = Some job →
  ∃ n acts w' job',
    run_thread n clock k w (Fanout now i platforms) = (acts, w', Scan now (S i))
    ∧ n ≤ S (length platforms)
    ∧ length (schedules w') = length (schedules w)
    ∧ (∀ j, j ≠ i → schedules w' !! j = schedules w !! j)
    ∧ Forall (λ a, action_job a = Some i ∧ a ≠ Enter i) acts
    ∧ schedules w' !! i = Some job'
    ∧ (j_status job' = POSTED ∨ j_status job' = FAILED).
Proof.
  induction platforms as [ | p rest IH ]; intros k w job Hjob.
  - exists 1, [Posted i],
      (update_job i (λ job, set_postedAt (clock k) (set_status POSTED job)) w),
      (set_postedAt (clock k) (set_status POSTED job)).
    split_and!.
    + reflexivity.
    + simpl. lia.
    + apply length_update_job.
    + intros j Hne. by apply schedules_update_job_ne.
    + by repeat constructor.
    + by rewrite schedules_update_job, Hjob.
    + by left.
  - destruct (postToPlatform (toLowerCase p) (input_of job) net (requests w))
      as [ [ e | res ] log ] eqn:Hcall.
    + exists 1, [Call i (toLowerCase p) (inl e)],
        (update_job i (λ job, set_error (e_message e) (set_status FAILED job))
           (mkWorld (schedules w) log)),
        (set_error (e_message e) (set_status FAILED job)).
      split_and!.
      * cbn [run_thread tick_step]. by rewrite Hjob, Hcall.
      * simpl. lia.
      * by rewrite length_update_job.
      * intros j Hne. by rewrite schedules_update_job_ne.
      * by repeat constructor.
      * rewrite schedules_update_job. cbn [schedules]. by rewrite Hjob.
      * by right.
    + destruct (IH (S k) (mkWorld (schedules w) log) job Hjob)
        as (n & acts & w' & job' & Hrun & Hn & Hlen & Hother & Hacts & Hjob' & Hst).
      exists (S n), (Call i (toLowerCase p) (inr res) :: acts), w', job'.
      split_and!; try done.
      * rewrite run_thread_S by done. cbn [tick_step]. rewrite Hjob, Hcall, Hrun. reflexivity.
      * simpl. lia.
      * constructor; [ done | exact Hacts ].
Qed.

(** One iteration of the [for] loop: the run moves from job [i] to job
    [i + 1]; the job is started exactly when it is QUEUED and due, and is
    left as it was otherwise. *)
Lemma scan_job clock now i k w job :
  schedules w !! i = Some job →
  ∃ n acts w',
    run_thread n clock k w (Scan now i) = (acts, w', Scan now (S i))
    ∧ length (schedules w') = length (schedules w)
    ∧ (∀ j, j ≠ i → schedules w' !! j = schedules w !! j)
    ∧ Forall (λ a, action_job a = Some i) acts
    ∧ (Enter i ∈ acts ↔ j_status job = QUEUED ∧ due job now = true)
    ∧ (¬ (j_status job = QUEUED ∧ due job now = true) → schedules w' !! i = Some job)
    ∧ (j_status job = QUEUED ∧ due job now = true →
       ∃ job', schedules w' !! i = Some job'
               ∧ (j_status job' = POSTED ∨ j_status job' = FAILED)).
Proof.
  intros Hjob.
  assert (Hskip : ¬ (j_status job = QUEUED ∧ due job now = true) →
                  tick_step (clock k) w (Scan now i) = (w, Scan now (S i), Skip i)).
  { intros Hno. cbn [tick_step]. rewrite Hjob. case_decide; [ done | ].
    destruct (due job now); [ | done ]. exfalso. apply Hno. split; [ | done ].
    by destruct (j_status job). }
  destruct (decide (j_status job = QUEUED ∧ due job now = true)) as [ [Hq Hd] | Hno ].
  - destruct (fanout_completes clock now i (j_platforms job) (S k)
                (update_job i (set_status POSTING) w) (set_status POSTING job))
      as (n & acts & w' & job' & Hrun & _ & Hlen & Hother & Hacts & Hjob' & Hst).
    { by rewrite schedules_update_job, Hjob. }
    exists (S n), (Enter i :: acts), w'. split_and!.
    + rewrite run_thread_S by done. cbn [tick_step]. rewrite Hjob.
      rewrite decide_False by (by rewrite Hq; intros []).
      rewrite Hd, Hrun. reflexivity.
    + by rewrite Hlen, length_update_job.
    + intros j Hne. rewrite Hother by done. by apply schedules_update_job_ne.
    + constructor; [ done | ]. eapply Forall_impl; [ exact Hacts | ]. by intros a [Ha _].
    + split; [ done | ]. intros _. by left.
    + intros Hno. by destruct Hno.
    + intros _. by exists job'.
  - exists 1, [Skip i], w. split_and!; try done.
    + cbn [run_thread]. by rewrite (Hskip Hno).
    + by repeat constructor.
    + split; [ | done ]. intros Hin. apply list_elem_of_singleton in Hin. discriminate Hin.
Qed.

(** A run of the callback from job [i] on always finishes. It starts
    exactly the jobs at or after [i] that are QUEUED and due when the run
    begins, leaves them POSTED or FAILED, and leaves every other job as it
    was. *)
Lemma tick_completes clock now : ∀ m i k w,
  length (schedules w) - i = m →
  ∃ n acts w',
    run_thread n clock k w (Scan now i) = (acts, w', Finished)
    ∧ length (schedules w') = length (schedules w)
    ∧ (∀ j, j < i → schedules w' !! j = schedules w !! j)
    ∧ Forall (λ a, ∀ j, action_job a = Some j → i ≤ j) acts
    ∧ ∀ j job, i ≤ j → schedules w !! j = Some job →
        (Enter j ∈ acts ↔ j_status job = QUEUED ∧ due job now = true)
        ∧ (¬ (j_status job = QUEUED ∧ due job now = true) → schedules w' !! j = Some job)
        ∧ (j_status job = QUEUED ∧ due job now = true →
           ∃ job', schedules w' !! j = Some job'
                   ∧ (j_status job' = POSTED ∨ j_status job' = FAILED)).
Proof.
  induction m as [ | m IH ]; intros i k w Hm.
  - exists 1, [Stop], w.
    assert (Hnone : schedules w !! i = None) by (apply lookup_ge_None; lia).
    split_and!; try done.
    + cbn [run_thread tick_step]. by rewrite Hnone.
    + by repeat constructor.
    + intros j job Hj Hjob. apply lookup_lt_Some in Hjob. lia.
  - destruct (lookup_lt_is_Some_2 (schedules w) i) as [job Hjob]; [ lia | ].
    destruct (scan_job clock now i k w job Hjob)
      as (n1 & acts1 & w1 & Hrun1 & Hlen1 & Hother1 & Hacts1 & Henter1 & Hkeep1 & Hend1).
    destruct (IH (S i) (k + n1) w1) as (n2 & acts2 & w2 & Hrun2 & Hlen2 & Hlow2 & Hacts2 & Hjobs2).
    { rewrite Hlen1. lia. }
    exists (n1 + n2), (acts1 ++ acts2), w2.
    assert (Hnot2 : ∀ a, a ∈ acts2 → action_job a ≠ Some i).
    { intros a Ha Hi. rewrite Forall_forall in Hacts2. specialize (Hacts2 a Ha i Hi). lia. }
    assert (Hnot1 : ∀ a j, a ∈ acts1 → j ≠ i → action_job a ≠ Some j).
    { intros a j Ha Hne Hj. rewrite Forall_forall in Hacts1. specialize (Hacts1 a Ha).
      congruence. }
    split_and!.
    + by rewrite run_thread_add, Hrun1, Hrun2.
    + by rewrite Hlen2.
    + intros j Hj. rewrite Hlow2 by lia. apply Hother1. lia.
    + apply Forall_app. split.
      * eapply Forall_impl; [ exact Hacts1 | ]. intros a Ha j Hj. rewrite Ha in Hj.
        injection Hj as <-. lia.
      * eapply Forall_impl; [ exact Hacts2 | ]. intros a Ha j Hj. specialize (Ha j Hj). lia.
    + intros j job' Hj Hjob'.
      destruct (decide (j = i)) as [ -> | Hne ].
      * rewrite Hjob in Hjob'. injection Hjob' as <-. split_and!.
        -- rewrite elem_of_app, <- Henter1. split; [ | by left ].
           intros [ Hin | Hin ]; [ done | ]. by destruct (Hnot2 _ Hin).
        -- intros Hno. rewrite Hlow2 by lia. by apply Hkeep1.
        -- intros Hyes. destruct (Hend1 Hyes) as (job1 & Hjob1 & Hst).
           exists job1. split; [ | done ]. by rewrite Hlow2 by lia.
      * destruct (Hjobs2 j job') as (Henter2 & Hkeep2 & Hend2); [ lia | | ].
        { by rewrite Hother1. }
        split_and!; try done.
        rewrite elem_of_app, <- Henter2. split; [ | by right ].
        intros [ Hin | Hin ]; [ | done ]. by destruct (Hnot1 _ j Hin Hne).
Qed.

(** *** Fan-out and the first failure *)

Lemma tick_step_from j ts w th w' th' a :
  thread_from j th →
  tick_step ts w th = (w', th', a) →
  thread_from j th'
  ∧ (∀ x, action_job a = Some x → j ≤ x)
  ∧ (∀ x, x < j → schedules w' !! x = schedules w !! x).
Proof.
  intros Hfrom Hstep. destruct th as [ now i | now i [ | p rest ] | ]; cbn [tick_step] in Hstep.
  - destruct (schedules w !! i) as [ job | ]; [ | by injection Hstep as <- <- <- ].
    case_decide; [ injection Hstep as <- <- <-; simpl in *; split_and!; try done; [ lia | ];
                   intros x [= <-]; lia | ].
    destruct (due job now); injection Hstep as <- <- <-; simpl in *.
    + split_and!; [ done | by intros x [= <-] | ].
      intros x Hx. apply list_lookup_alter_ne. lia.
    + split_and!; [ lia | by intros x [= <-] | done ].
  - injection Hstep as <- <- <-. simpl in *. split_and!; [ lia | by intros x [= <-] | ].
    intros x Hx. apply list_lookup_alter_ne. lia.
  - destruct (schedules w !! i) as [ job | ]; [ | by injection Hstep as <- <- <- ].
    destruct (postToPlatform _ _ _ _) as [ [ e | res ] log ]; injection Hstep as <- <- <-;
      simpl in *.
    + split_and!; [ lia | by intros x [= <-] | ].
      intros x Hx. apply list_lookup_alter_ne. lia.
    + split_and!; [ done | by intros x [= <-] | done ].
  - by injection Hstep as <- <- <-.
Qed.

(** From job [j] on, a run neither looks at nor changes a job before [j]. *)
Lemma run_thread_from j clock : ∀ fuel k w th acts w' th',
  thread_from j th →
  run_thread fuel clock k w th = (acts, w', th') →
  Forall (λ a, ∀ x, action_job a = Some x → j ≤ x) acts
  ∧ (∀ x, x < j → schedules w' !! x = schedules w !! x).
Proof.
  induction fuel as [ | fuel IH ]; intros k w th acts w' th' Hfrom Hrun.
  - injection Hrun as <- <- <-. by split.
  - destruct (decide (th = Finished)) as [ -> | Hth ].
    { rewrite run_thread_Finished in Hrun. injection Hrun as <- <- <-. by split. }
    rewrite run_thread_S in Hrun by done.
    destruct (tick_step (clock k) w th) as [[w1 th1] a] eqn:Hstep.
    destruct (run_thread fuel clock (S k) w1 th1) as [[acts1 w2] th2] eqn:Hrest.
    injection Hrun as <- <- <-.
    destruct (tick_step_from j _ _ _ _ _ _ Hfrom Hstep) as (Hfrom1 & Ha & Hw1).
    destruct (IH _ _ _ _ _ _ Hfrom1 Hrest) as (Hacts & Hw2).
    split; [ by constructor | ].
    intros x Hx. rewrite Hw2 by done. by apply Hw1.
Qed.

(** C2 (amended): a QUEUED and due job with the platforms [A; B], where the
    call for A fails with the error [e] (whatever the call for B would do).
    After two steps the run has set the job to POSTING, called A, and set
    the job to FAILED with the message of [e]; it is then at the next job.
    The call for B is never made: in the rest of the run no action is about
    this job, and the job stays as it is. *)
Theorem fanout_stops_at_first_failure
    (clock : nat -> string) (k : nat) (w : World) (now : Z) (i : nat) (job : Job)
    (A B : string) (e : Error) :
  schedules w !! i = Some job →
  j_status job = QUEUED →
  due job now = true →
  j_platforms job = [A; B] →
  (postToPlatform (toLowerCase A) (input_of job) net (requests w)).1 = inl e →
  let failed := set_error (e_message e) (set_status FAILED job) in
  ∃ w',
    run_thread 2 clock k w (Scan now i) =
      ([Enter i; Call i (toLowerCase A) (inl e)], w', Scan now (S i))
    ∧ schedules w' !! i = Some failed
    ∧ ∀ fuel, ∃ rest w'' th,
        run_thread (2 + fuel) clock k w (Scan now i) =
          ([Enter i; Call i (toLowerCase A) (inl e)] ++ rest, w'', th)
        ∧ Forall (λ a, action_job a ≠ Some i) rest
        ∧ schedules w'' !! i = Some failed.
Proof.
  intros Hjob Hq Hd Hp Hcall failed.
  destruct (postToPlatform (toLowerCase A) (input_of job) net (requests w))
    as [ r log ] eqn:HA. simpl in Hcall. subst r.
  set (w1 := update_job i (set_status POSTING) w).
  set (w' := update_job i (λ job, set_error (e_message e) (set_status FAILED job))
               (mkWorld (schedules w1) log)).
  assert (Hjob1 : schedules w1 !! i = Some (set_status POSTING job)).
  { subst w1. by rewrite schedules_update_job, Hjob. }
  assert (Hrun : run_thread 2 clock k w (Scan now i) =
                 ([Enter i; Call i (toLowerCase A) (inl e)], w', Scan now (S i))).
  { rewrite run_thread_S by done. cbn [tick_step]. rewrite Hjob.
    rewrite decide_False by (by rewrite Hq; intros []). rewrite Hd, Hp.
    cbn [run_thread tick_step]. fold w1. rewrite Hjob1.
    change (input_of (set_status POSTING job)) with (input_of job).
    change (requests w1) with (requests w). rewrite HA. reflexivity. }
  assert (Hfailed : schedules w' !! i = Some failed).
  { subst w'. rewrite schedules_update_job. cbn [schedules]. by rewrite Hjob1. }
  exists w'. split_and!; [ exact Hrun | exact Hfailed | ].
  intros fuel. rewrite run_thread_add, Hrun.
  destruct (run_thread fuel clock (k + 2) w' (Scan now (S i))) as [[rest w''] th] eqn:Hrest.
  exists rest, w'', th. split; [ done | ].
  destruct (run_thread_from (S i) clock fuel (k + 2) w' (Scan now (S i)) rest w'' th)
    as (Hacts & Hsame); [ simpl; lia | done | ].
  split.
  - eapply Forall_impl; [ exact Hacts | ]. intros a Ha Hi. specialize (Ha i Hi). lia.
  - rewrite Hsame by lia. exact Hfailed.
Qed.

(** *** The life of a job, with overlapping runs *)

Lemma tick_step_kind ts w th w' th' a :
  tick_step ts w th = (w', th', a) → step_kind w th w' th'.
Proof.
  intros Hstep. destruct th as [ now i | now i [ | p rest ] | ]; cbn [tick_step] in Hstep.
  - destruct (schedules w !! i) as [ job | ] eqn:Hjob;
      [ | injection Hstep as <- <- <-; by apply step_quiet ].
    case_decide as Hq; [ injection Hstep as <- <- <-; by apply step_quiet | ].
    destruct (due job now); injection Hstep as <- <- <-; [ | by apply step_quiet ].
    eapply step_enter; try done. all: by destruct (j_status job).
  - injection Hstep as <- <- <-.
    eapply (step_leave _ _ _ _ now i [] _ POSTED); try done. by left.
  - destruct (schedules w !! i) as [ job | ] eqn:Hjob;
      [ | injection Hstep as <- <- <-; by apply step_quiet ].
    destruct (postToPlatform _ _ _ _) as [ [ e | res ] log ]; injection Hstep as <- <- <-.
    + eapply (step_leave _ _ _ _ now i (p :: rest) _ FAILED); try done. by right.
    + apply step_quiet; [ done | ]. intros now' i' rest' [= <- <- <-]. by eexists.
  - injection Hstep as <- <- <-. by apply step_quiet.
Qed.

(** A platform call is a step of a run that is inside the [try] block. *)
Lemma tick_step_Call ts w th w' th' i p o :
  tick_step ts w th = (w', th', Call i p o) → ∃ now rest, th = Fanout now i rest.
Proof.
  intros Hstep. destruct th as [ now j | now j [ | q rest ] | ]; cbn [tick_step] in Hstep.
  - destruct (schedules w !! j) as [ job | ]; [ | discriminate ].
    case_decide; [ discriminate | ]. by destruct (due job now).
  - discriminate.
  - destruct (schedules w !! j) as [ job | ]; [ | discriminate ].
    destruct (postToPlatform _ _ _ _) as [ [ e | res ] log ];
      injection Hstep as _ _ <- _ _; by eexists _, _.
  - discriminate.
Qed.

(** The loop passes over a job that is not QUEUED. *)
Lemma tick_step_not_QUEUED ts w now i job :
  schedules w !! i = Some job →
  j_status job ≠ QUEUED →
  tick_step ts w (Scan now i) = (w, Scan now (S i), Skip i).
Proof. intros Hjob Hq. cbn [tick_step]. rewrite Hjob. by rewrite decide_True. Qed.

(** The request handlers only append QUEUED jobs. *)
Lemma api_post_appends body rnd w :
  ∃ new, schedules (api_post body rnd w).2 = schedules w ++ new
         ∧ Forall (λ job, j_status job = QUEUED) new.
Proof.
  unfold api_post. destruct (post_schema body) as [ [[[platforms text] whenISO] mediaUrls] | ].
  - eexists [_]. split; [ done | ]. by repeat constructor.
  - exists []. split; [ by rewrite app_nil_r | done ].
Qed.

Lemma api_schedule_bulk_appends body rnd w :
  ∃ new, schedules (api_schedule_bulk body rnd w).2 = schedules w ++ new
         ∧ Forall (λ job, j_status job = QUEUED) new.
Proof.
  unfold api_schedule_bulk. destruct (bulk_schema body) as [ items | ].
  - eexists. split; [ done | ]. apply Forall_forall. intros job Hin.
    apply list_elem_of_lookup in Hin as (k & Hk). rewrite list_lookup_imap in Hk.
    destruct (items !! k) as [ [[platforms text] whenISO] | ]; [ | done ].
    by injection Hk as <-.
  - exists []. split; [ by rewrite app_nil_r | done ].
Qed.

Lemma allowed_rank a b : allowed a b → a = b ∨ rank a < rank b.
Proof.
  intros [ -> | [ [-> ->] | [ [-> ->] | [-> [ -> | -> ]] ] ] ]; simpl; auto.
Qed.

Lemma owns_init : owns init.
Proof.
  unfold owns, init. simpl. split; intros;
    match goal with H : [] !! _ = Some _ |- _ => by rewrite lookup_nil in H end.
Qed.

(** Appending QUEUED jobs (or nothing) keeps the invariant. *)
Lemma owns_append s w' new :
  owns s →
  schedules w' = schedules (world s) ++ new →
  Forall (λ job, j_status job = QUEUED) new →
  owns (mkSys w' (threads s))
  ∧ ∀ i, allowed (status_at s i) (status_at (mkSys w' (threads s)) i).
Proof.
  intros [Hposting Hone] Hw' Hnew.
  assert (Hold : ∀ i st, status_at s i = Some st → status_at (mkSys w' (threads s)) i = Some st).
  { unfold status_at. simpl. intros i st Hst. rewrite Hw'.
    destruct (schedules (world s) !! i) as [ job | ] eqn:Hjob; [ | done ].
    by rewrite (lookup_app_l_Some _ _ _ _ Hjob). }
  split; [ split | ].
  - intros k now i rest Hk. apply Hold. by eapply Hposting.
  - exact Hone.
  - intros i. destruct (status_at s i) as [ st | ] eqn:Hst.
    + left. symmetry. by apply Hold.
    + unfold status_at in *. simpl. rewrite Hw'.
      destruct (schedules (world s) !! i) as [ job | ] eqn:Hjob; [ done | ].
      apply lookup_ge_None in Hjob. rewrite lookup_app_r by done.
      destruct (new !! (i - length (schedules (world s)))) as [ job | ] eqn:Hnewjob;
        [ | by left ].
      right. left. split; [ done | ]. simpl. f_equal.
      rewrite Forall_forall in Hnew. apply Hnew. by eapply list_elem_of_lookup_2.
Qed.

(** A step of a run keeps the invariant, and moves each status by an
    allowed move. *)
Lemma owns_run s k ts th w' th' a :
  owns s →
  threads s !! k = Some th →
  tick_step ts (world s) th = (w', th', a) →
  owns (mkSys w' (<[k := th']> (threads s)))
  ∧ ∀ i, allowed (status_at s i) (status_at (mkSys w' (<[k := th']> (threads s))) i).
Proof.
  intros [Hposting Hone] Hk Hstep.
  assert (Hlook : ∀ k2 x, <[k := th']> (threads s) !! k2 = Some x →
                          (k2 = k ∧ x = th') ∨ (k2 ≠ k ∧ threads s !! k2 = Some x)).
  { intros k2 x Hx. apply list_lookup_insert_Some in Hx as [ (-> & -> & _) | (Hne & Hx) ]; auto. }
  destruct (tick_step_kind _ _ _ _ _ _ Hstep)
    as [ Hsame Hfan | now i job -> Hjob Hq Hsched -> | now i rest f st -> Hsched Hf Hst -> ].
  - (* no change to schedules *)
    assert (Hstat : ∀ i, status_at (mkSys w' (<[k := th']> (threads s))) i = status_at s i).
    { intros i. unfold status_at. simpl. by rewrite Hsame. }
    assert (Hback : ∀ k2 now i rest, <[k := th']> (threads s) !! k2 = Some (Fanout now i rest) →
                                     ∃ rest0, threads s !! k2 = Some (Fanout now i rest0)).
    { intros k2 now i rest Hk2. destruct (Hlook _ _ Hk2) as [ [-> Hx] | [_ Hold] ].
      - symmetry in Hx. destruct (Hfan now i rest Hx) as (rest0 & Hth).
        exists rest0. by rewrite Hk, Hth.
      - by exists rest. }
    split; [ split | ].
    + intros k2 now i rest Hk2. rewrite Hstat.
      destruct (Hback _ _ _ _ Hk2) as (rest0 & Hold). by eapply Hposting.
    + intros k1 k2 now i rest now' rest' Hk1 Hk2.
      destruct (Hback _ _ _ _ Hk1) as (rest1 & Hold1).
      destruct (Hback _ _ _ _ Hk2) as (rest2 & Hold2). by eapply Hone.
    + intros i. left. by rewrite Hstat.
  - (* the job is started *)
    assert (Hi : status_at s i = Some QUEUED).
    { unfold status_at. by rewrite Hjob; simpl; rewrite Hq. }
    assert (Hnew : status_at (mkSys w' (<[k := Fanout now i (j_platforms job)]> (threads s))) i
                   = Some POSTING).
    { unfold status_at. simpl. by rewrite Hsched, list_lookup_alter_eq, Hjob. }
    assert (Hoth : ∀ j, j ≠ i →
              status_at (mkSys w' (<[k := Fanout now i (j_platforms job)]> (threads s))) j
              = status_at s j).
    { intros j Hne. unfold status_at. simpl. by rewrite Hsched, list_lookup_alter_ne. }
    assert (Hfree : ∀ k2 now2 rest2, threads s !! k2 ≠ Some (Fanout now2 i rest2)).
    { intros k2 now2 rest2 Hk2. specialize (Hposting _ _ _ _ Hk2). congruence. }
    split; [ split | ].
    + intros k2 now2 i2 rest2 Hk2. destruct (Hlook _ _ Hk2) as [ [-> Hx] | [_ Hold] ].
      * injection Hx as -> -> ->. exact Hnew.
      * destruct (decide (i2 = i)) as [ -> | Hne ]; [ by destruct (Hfree _ _ _ Hold) | ].
        rewrite Hoth by done. by eapply Hposting.
    + intros k1 k2 now1 i2 rest1 now2 rest2 Hk1 Hk2.
      destruct (Hlook _ _ Hk1) as [ [-> Hx1] | [_ Hold1] ];
        destruct (Hlook _ _ Hk2) as [ [-> Hx2] | [_ Hold2] ]; try done.
      * injection Hx1 as -> -> ->. by destruct (Hfree _ _ _ Hold2).
      * injection Hx2 as -> -> ->. by destruct (Hfree _ _ _ Hold1).
      * by eapply Hone.
    + intros j. destruct (decide (j = i)) as [ -> | Hne ].
      * rewrite Hi, Hnew. right. right. by left.
      * left. by rewrite Hoth.
  - (* the job is finished *)
    assert (Hi : status_at s i = Some POSTING) by by eapply Hposting.
    assert (Hnew : status_at (mkSys w' (<[k := Scan now (S i)]> (threads s))) i = Some st).
    { unfold status_at in *. simpl. rewrite Hsched, list_lookup_alter_eq.
      destruct (schedules (world s) !! i) as [ job | ]; [ | done ]. simpl. by rewrite Hf. }
    assert (Hoth : ∀ j, j ≠ i →
              status_at (mkSys w' (<[k := Scan now (S i)]> (threads s))) j = status_at s j).
    { intros j Hne. unfold status_at. simpl. by rewrite Hsched, list_lookup_alter_ne. }
    assert (Hback : ∀ k2 now2 i2 rest2,
              <[k := Scan now (S i)]> (threads s) !! k2 = Some (Fanout now2 i2 rest2) →
              k2 ≠ k ∧ threads s !! k2 = Some (Fanout now2 i2 rest2) ∧ i2 ≠ i).
    { intros k2 now2 i2 rest2 Hk2. destruct (Hlook _ _ Hk2) as [ [_ [=]] | [Hne Hold] ].
      split_and!; try done. intros ->. apply Hne. by eapply Hone. }
    split; [ split | ].
    + intros k2 now2 i2 rest2 Hk2. destruct (Hback _ _ _ _ Hk2) as (_ & Hold & Hne).
      rewrite Hoth by done. by eapply Hposting.
    + intros k1 k2 now1 i2 rest1 now2 rest2 Hk1 Hk2.
      destruct (Hback _ _ _ _ Hk1) as (_ & Hold1 & _).
      destruct (Hback _ _ _ _ Hk2) as (_ & Hold2 & _). by eapply Hone.
    + intros j. destruct (decide (j = i)) as [ -> | Hne ].
      * rewrite Hi, Hnew. right. right. right. split; [ done | ]. by destruct Hst as [ -> | -> ]; auto.
      * left. by rewrite Hoth.
Qed.

Lemma owns_apply_event s e :
  owns s →
  owns (apply_event s e) ∧ ∀ i, allowed (status_at s i) (status_at (apply_event s e) i).
Proof.
  intros Hs. destruct e as [ now | k ts | body rnd | body rnd | platform input ];
    cbn [apply_event].
  - destruct Hs as [Hposting Hone].
    assert (Hback : ∀ k th, (threads s ++ [Scan now 0]) !! k = Some th →
                            th ≠ Scan now 0 → threads s !! k = Some th).
    { intros k th Hk Hth. apply lookup_app_Some in Hk as [ Hk | [_ Hk] ]; [ done | ].
      apply list_lookup_singleton_Some in Hk as [_ <-]. done. }
    split; [ split | ].
    + intros k now' i rest Hk. apply Hback in Hk; [ | done ]. by eapply Hposting.
    + intros k k' now1 i rest1 now2 rest2 Hk Hk'.
      apply Hback in Hk; [ | done ]. apply Hback in Hk'; [ | done ]. by eapply Hone.
    + intros i. by left.
  - destruct (threads s !! k) as [ th | ] eqn:Hk.
    + destruct (tick_step ts (world s) th) as [[w' th'] a] eqn:Hstep.
      by eapply owns_run.
    + split; [ done | ]. intros i. by left.
  - destruct (api_post_appends body rnd (world s)) as (new & Hw' & Hnew).
    by eapply owns_append.
  - destruct (api_schedule_bulk_appends body rnd (world s)) as (new & Hw' & Hnew).
    by eapply owns_append.
  - apply (owns_append s _ []); [ done | by rewrite app_nil_r | done ].
Qed.

Lemma owns_run_events evs : ∀ s, owns s → owns (run_events s evs).
Proof.
  induction evs as [ | e evs IH ]; intros s Hs; [ done | ].
  simpl. apply IH. by apply owns_apply_event.
Qed.

(** Along any events a status only moves forward. *)
Lemma run_events_rank evs i : ∀ s,
  owns s →
  status_at s i = status_at (run_events s evs) i
  ∨ rank (status_at s i) < rank (status_at (run_events s evs) i).
Proof.
  induction evs as [ | e evs IH ]; intros s Hs; [ by left | ].
  simpl. destruct (owns_apply_event s e Hs) as [Hs' Hallowed].
  destruct (allowed_rank _ _ (Hallowed i)) as [ Heq | Hlt ];
    destruct (IH _ Hs') as [ Heq' | Hlt' ].
  - left. congruence.
  - right. by rewrite Heq.
  - right. by rewrite <- Heq'.
  - right. lia.
Qed.

(** A job enters POSTING at most once, and not at all once it has been
    POSTING. *)
Lemma enters_POSTING_bound evs i : ∀ s,
  owns s →
  enters_POSTING i s evs ≤ (if decide (rank (status_at s i) < 2) then 1 else 0).
Proof.
  induction evs as [ | e evs IH ]; intros s Hs.
  - simpl. case_decide; lia.
  - cbn [enters_POSTING]. destruct (owns_apply_event s e Hs) as [Hs' Hallowed].
    specialize (IH _ Hs'). specialize (Hallowed i).
    destruct (decide (status_at s i ≠ Some POSTING ∧ status_at (apply_event s e) i = Some POSTING))
      as [ [Hne Hp] | Hno ].
    + rewrite Hp in IH, Hallowed.
      assert (Hq : status_at s i = Some QUEUED).
      { destruct Hallowed as [ Heq | [ [_ [=]] | [ [Hq _] | [Hq _] ] ] ]; congruence. }
      rewrite Hq. cbn [rank] in IH |- *. rewrite decide_False in IH by lia.
      rewrite decide_True by lia. lia.
    + apply allowed_rank in Hallowed as [ Heq | Hlt ].
      * rewrite <- Heq in IH. lia.
      * repeat case_decide; lia.
Qed.

(** C9: in every state the server can reach, with runs of the callback that
    may overlap and requests arriving in between:
    - the loop passes over a job whose status is not QUEUED;
    - a run makes a platform call for a job only while that job is POSTING:
      the status was set before the first call;
    - a job enters POSTING at most once;
    - a job that is POSTED or FAILED stays so, whatever happens next. *)
Theorem job_status_lifecycle (evs : list Event) :
  (∀ ts now i job,
     schedules (world (run_events init evs)) !! i = Some job →
     j_status job ≠ QUEUED →
     tick_step ts (world (run_events init evs)) (Scan now i) =
       (world (run_events init evs), Scan now (S i), Skip i))
  ∧ (∀ k th ts w' th' i p o,
       threads (run_events init evs) !! k = Some th →
       tick_step ts (world (run_events init evs)) th = (w', th', Call i p o) →
       status_at (run_events init evs) i = Some POSTING)
  ∧ (∀ i, enters_POSTING i init evs ≤ 1)
  ∧ (∀ i st more,
       st = POSTED ∨ st = FAILED →
       status_at (run_events init evs) i = Some st →
       status_at (run_events (run_events init evs) more) i = Some st).
Proof.
  pose proof (owns_run_events evs init owns_init) as Hs.
  split_and!.
  - intros ts now i job Hjob Hq. by apply (tick_step_not_QUEUED _ _ _ _ job).
  - intros k th ts w' th' i p o Hk Hstep.
    destruct (tick_step_Call _ _ _ _ _ _ _ _ Hstep) as (now & rest & ->).
    destruct Hs as [Hposting _]. by eapply Hposting.
  - intros i. pose proof (enters_POSTING_bound evs i init owns_init) as Hb.
    case_decide; lia.
  - intros i st more Hst Hi.
    destruct (run_events_rank more i _ Hs) as [ Heq | Hlt ]; [ congruence | ].
    rewrite Hi in Hlt. destruct Hst as [ -> | -> ]; simpl in Hlt;
      destruct (status_at (run_events (run_events init evs) more) i) as [ [] | ];
      simpl in Hlt; lia.
Qed.

(** *** What the publisher can and cannot do *)

(** The input built for a job has no token. *)
Lemma input_of_no_token (job : Job) (k : string) : prop (tokens (input_of job)) k = None.
Proof. reflexivity. Qed.

Lemma tick_step_requests ts w th w' th' a :
  tick_step ts w th = (w', th', a) → requests w' = requests w.
Proof.
  intros Hstep. destruct th as [ now i | now i [ | p rest ] | ]; cbn [tick_step] in Hstep.
  - destruct (schedules w !! i) as [ job | ]; [ | by injection Hstep as <- _ _ ].
    case_decide; [ by injection Hstep as <- _ _ | ].
    destruct (due job now); by injection Hstep as <- _ _.
  - by injection Hstep as <- _ _.
  - destruct (schedules w !! i) as [ job | ]; [ | by injection Hstep as <- _ _ ].
    pose proof (postToPlatform_without_tokens (toLowerCase p) (input_of job) net (requests w)
                  (input_of_no_token job)) as Hlog.
    destruct (postToPlatform _ _ _ _) as [ [ e | res ] log ]; simpl in Hlog; subst log;
      by injection Hstep as <- _ _.
  - by injection Hstep as <- _ _.
Qed.

(** Is the event a call of the route [/api/adapters/:platform/post]? *)
Definition is_direct (e : Event) : bool :=
  match e with Direct _ _ => true | _ => false end.

(** The publisher never reaches the network: it builds its inputs with
    empty [tokens], and every adapter asks for a token first. Whatever runs
    of the callback and whatever requests to the queue take place, the log
    of requests only changes through the direct route. *)
Theorem publisher_sends_no_request (s : Sys) (evs : list Event) :
  Forall (λ e, is_direct e = false) evs →
  requests (world (run_events s evs)) = requests (world s).
Proof.
  revert s. induction evs as [ | e evs IH ]; intros s Hevs; [ done | ].
  apply Forall_cons in Hevs as [He Hevs]. simpl. rewrite IH by done.
  destruct e as [ now | k ts | body rnd | body rnd | platform input ];
    cbn [apply_event]; try done.
  - destruct (threads s !! k) as [ th | ]; [ | done ].
    destruct (tick_step ts (world s) th) as [[w' th'] a] eqn:Hstep.
    by apply tick_step_requests in Hstep.
  - unfold api_post. by destruct (post_schema body) as [ [[[? ?] ?] ?] | ].
  - unfold api_schedule_bulk. by destruct (bulk_schema body).
Qed.



(** *** Platform names in any case *)

(** The upper-case form of a letter a-z; any other character is kept. *)
Definition upper_char (c : ascii) : ascii :=
  let n := nat_of_ascii c in
  if (97 <=? n) && (n <=? 122) then ascii_of_nat (n - 32) else c.

(** [p] is [k] with some of its letters a-z written in upper case. *)
Fixpoint capitalisation_of (p k : string) : Prop :=
  match p, k with
  | EmptyString, EmptyString => True
  | String c p', String d k' => (c = d ∨ c = upper_char d) ∧ capitalisation_of p' k'
  | _, _ => False
  end.

Lemma lower_char_upper_char (d : ascii) :
  lower_char d = d → lower_char (upper_char d) = d.
Proof.
  destruct d as [[] [] [] [] [] [] [] []]; intros H; first [ reflexivity | exact H ].
Qed.

Lemma toLowerCase_capitalisation : ∀ p k,
  toLowerCase k = k → capitalisation_of p k → toLowerCase p = k.
Proof.
  induction p as [ | c p IH ]; intros [ | d k ] Hk Hcap; try done.
  cbn [toLowerCase] in Hk. injection Hk as Hd Hk.
  destruct Hcap as [Hc Hcap]. cbn [toLowerCase]. f_equal.
  - destruct Hc as [ -> | -> ]; [ done | by apply lower_char_upper_char ].
  - by apply IH.
Qed.

(** The keys of [adapters] are written in lower case. *)
Lemma adapters_key_lower (k : string) (fn : Adapter) :
  adapters !! k = Some fn → toLowerCase k = k.
Proof.
  intros Hfn. apply adapters_lookup in Hfn. table_cases Hfn; reflexivity.
Qed.

(** The publisher finds the adapter of a platform whatever the case of its
    letters: when [p] is a key [k] of [adapters] with some letters in upper
    case, [p.toLowerCase()] is [k], and the call the publisher makes for [p]
    is the call of the adapter of [k] on the input of the job. *)
Theorem any_capitalisation_reaches_the_adapter
    (p k : string) (fn : Adapter) (ts : string) (w : World) (now : Z) (i : nat)
    (job : Job) (rest : list string) :
  adapters !! k = Some fn →
  capitalisation_of p k →
  schedules w !! i = Some job →
  toLowerCase p = k
  ∧ postToPlatform (toLowerCase p) (input_of job) net (requests w)
    = fn (input_of job) net (requests w)
  ∧ (tick_step ts w (Fanout now i (p :: rest))).2
    = Call i k (fn (input_of job) net (requests w)).1.
Proof.
  intros Hfn Hcap Hjob.
  assert (Hp : toLowerCase p = k).
  { apply toLowerCase_capitalisation; [ by eapply adapters_key_lower | done ]. }
  assert (Hcall : postToPlatform k (input_of job) net (requests w)
                  = fn (input_of job) net (requests w)).
  { unfold postToPlatform, adapters_get. by rewrite Hfn. }
  split_and!; [ done | by rewrite Hp | ].
  cbn [tick_step]. rewrite Hjob, Hp, Hcall.
  by destruct (fn (input_of job) net (requests w)) as [ [ e | res ] log ].
Qed.

(** *** What never changes in a job *)

(** Two states of a job with the same id, platforms, text, time and
    media. *)
Definition same_payload (job job' : Job) : Prop :=
  j_id job' = j_id job
  ∧ j_platforms job' = j_platforms job
  ∧ j_text job' = j_text job
  ∧ j_whenISO job' = j_whenISO job
  ∧ j_mediaUrls job' = j_mediaUrls job.

(** [error] and [postedAt] go with the status: a job has an error message
    exactly when it is FAILED, and a time of posting exactly when it is
    POSTED. *)
Definition well_marked (job : Job) : Prop :=
  match j_status job with
  | QUEUED | POSTING => j_error job = None ∧ j_postedAt job = None
  | POSTED => j_error job = None ∧ is_Some (j_postedAt job)
  | FAILED => is_Some (j_error job) ∧ j_postedAt job = None
  end.



Lemma same_payload_refl job : same_payload job job.
Proof. by repeat split. Qed.

Lemma same_payload_trans job1 job2 job3 :
  same_payload job1 job2 → same_payload job2 job3 → same_payload job1 job3.
Proof. unfold same_payload. intros (? & ? & ? & ? & ?) (? & ? & ? & ? & ?). split_and!; congruence. Qed.

Lemma alter_payload (f : Job → Job) i0 (l : list Job) i job :
  (∀ job, same_payload job (f job)) →
  l !! i = Some job →
  ∃ job', alter f i0 l !! i = Some job' ∧ same_payload job job'.
Proof.
  intros Hf Hjob. destruct (decide (i0 = i)) as [ -> | Hne ].
  - exists (f job). by rewrite list_lookup_alter_eq, Hjob.
  - exists job. rewrite list_lookup_alter_ne by done. split; [ done | apply same_payload_refl ].
Qed.

Lemma tick_step_payload ts w th w' th' a i job :
  tick_step ts w th = (w', th', a) →
  schedules w !! i = Some job →
  ∃ job', schedules w' !! i = Some job' ∧ same_payload job job'.
Proof.
  intros Hstep Hjob.
  assert (Hsame : ∃ job', schedules w !! i = Some job' ∧ same_payload job job').
  { exists job. split; [ done | apply same_payload_refl ]. }
  destruct th as [ now i0 | now i0 [ | p rest ] | ]; cbn [tick_step] in Hstep.
  - destruct (schedules w !! i0) as [ job0 | ]; [ | by injection Hstep as <- _ _ ].
    case_decide; [ by injection Hstep as <- _ _ | ].
    destruct (due job0 now); injection Hstep as <- _ _; [ | done ].
    by apply alter_payload.
  - injection Hstep as <- _ _. by apply alter_payload.
  - destruct (schedules w !! i0) as [ job0 | ]; [ | by injection Hstep as <- _ _ ].
    destruct (postToPlatform _ _ _ _) as [ [ e | res ] log ]; injection Hstep as <- _ _;
      [ | done ].
    by apply alter_payload.
  - by injection Hstep as <- _ _.
Qed.

Lemma apply_event_payload s e i job :
  schedules (world s) !! i = Some job →
  ∃ job', schedules (world (apply_event s e)) !! i = Some job' ∧ same_payload job job'.
Proof.
  intros Hjob.
  assert (Hsame : ∃ job', schedules (world s) !! i = Some job' ∧ same_payload job job').
  { exists job. split; [ done | apply same_payload_refl ]. }
  destruct e as [ now | k ts | body rnd | body rnd | platform input ];
    cbn [apply_event world schedules]; try done.
  - destruct (threads s !! k) as [ th | ]; [ | done ].
    destruct (tick_step ts (world s) th) as [[w' th'] a] eqn:Hstep.
    by eapply tick_step_payload.
  - destruct (api_post_appends body rnd (world s)) as (new & -> & _).
    exists job. split; [ by apply lookup_app_l_Some | apply same_payload_refl ].
  - destruct (api_schedule_bulk_appends body rnd (world s)) as (new & -> & _).
    exists job. split; [ by apply lookup_app_l_Some | apply same_payload_refl ].
Qed.

(** Whatever happens, a job stays at its index in the queue with its id,
    platforms, text, time and media: jobs are never removed, reordered or
    edited; only their status, error and time of posting change. *)
Theorem jobs_keep_their_payload (evs : list Event) (s : Sys) (i : nat) (job : Job) :
  schedules (world s) !! i = Some job →
  ∃ job', schedules (world (run_events s evs)) !! i = Some job' ∧ same_payload job job'.
Proof.
  revert s job. induction evs as [ | e evs IH ]; intros s job Hjob.
  - exists job. split; [ done | apply same_payload_refl ].
  - destruct (apply_event_payload s e i job Hjob) as (job1 & Hjob1 & Hsame1).
    destruct (IH _ _ Hjob1) as (job' & Hjob' & Hsame').
    exists job'. split; [ done | by eapply same_payload_trans ].
Qed.

Lemma api_post_appends_fresh body rnd w :
  ∃ new, schedules (api_post body rnd w).2 = schedules w ++ new ∧ Forall well_marked new.
Proof.
  unfold api_post. destruct (post_schema body) as [ [[[platforms text] whenISO] mediaUrls] | ].
  - eexists [_]. split; [ done | ]. by repeat constructor.
  - exists []. split; [ by rewrite app_nil_r | done ].
Qed.

Lemma api_schedule_bulk_appends_fresh body rnd w :
  ∃ new, schedules (api_schedule_bulk body rnd w).2 = schedules w ++ new
         ∧ Forall well_marked new.
Proof.
  unfold api_schedule_bulk. destruct (bulk_schema body) as [ items | ].
  - eexists. split; [ done | ]. apply Forall_lookup. intros k job Hk.
    rewrite list_lookup_imap in Hk.
    destruct (items !! k) as [ [[platforms text] whenISO] | ]; [ | done ].
    injection Hk as <-. by split.
  - exists []. split; [ by rewrite app_nil_r | done ].
Qed.

Lemma apply_event_well_marked s e :
  owns s →
  Forall well_marked (schedules (world s)) →
  Forall well_marked (schedules (world (apply_event s e))).
Proof.
  intros [Hposting _] Hall.
  destruct e as [ now | k ts | body rnd | body rnd | platform input ];
    cbn [apply_event world schedules]; try done.
  - destruct (threads s !! k) as [ th | ] eqn:Hk; [ | done ].
    destruct (tick_step ts (world s) th) as [[w' th'] a] eqn:Hstep.
    assert (Hin : ∀ now i rest, th = Fanout now i rest →
              ∀ job, schedules (world s) !! i = Some job → j_status job = POSTING).
    { intros now i rest -> job Hjob. specialize (Hposting _ _ _ _ Hk).
      unfold status_at in Hposting. rewrite Hjob in Hposting. by injection Hposting. }
    destruct th as [ now i | now i [ | p rest ] | ]; cbn [tick_step] in Hstep.
    + destruct (schedules (world s) !! i) as [ job | ] eqn:Hjob;
        [ | by injection Hstep as <- _ _ ].
      case_decide as Hq; [ by injection Hstep as <- _ _ | ].
      destruct (due job now); injection Hstep as <- _ _; [ | done ].
      apply Forall_alter; [ done | ]. intros job' Hjob'. rewrite Hjob in Hjob'.
      injection Hjob' as <-. unfold well_marked. simpl.
      by destruct (j_status job).
    + injection Hstep as <- _ _. apply Forall_alter; [ done | ].
      intros job Hjob. unfold well_marked. simpl.
      rewrite (Hin _ _ _ eq_refl _ Hjob). intros [-> _]. split; [ done | by eexists ].
    + destruct (schedules (world s) !! i) as [ job | ] eqn:Hjob;
        [ | by injection Hstep as <- _ _ ].
      destruct (postToPlatform _ _ _ _) as [ [ e | res ] log ]; injection Hstep as <- _ _;
        [ | done ].
      apply Forall_alter; [ done | ].
      intros job' Hjob'. unfold well_marked. simpl.
      rewrite (Hin _ _ _ eq_refl _ Hjob'). intros [_ ->]. split; [ by eexists | done ].
    + by injection Hstep as <- _ _.
  - destruct (api_post_appends_fresh body rnd (world s)) as (new & -> & Hnew).
    by apply Forall_app.
  - destruct (api_schedule_bulk_appends_fresh body rnd (world s)) as (new & -> & Hnew).
    by apply Forall_app.
Qed.

Lemma run_events_well_marked evs : ∀ s,
  owns s →
  Forall well_marked (schedules (world s)) →
  Forall well_marked (schedules (world (run_events s evs))).
Proof.
  induction evs as [ | e evs IH ]; intros s Hs Hall; [ done | ].
  simpl. apply IH; [ by apply owns_apply_event | by apply apply_event_well_marked ].
Qed.

(** In every state the server can reach, a job has an error message exactly
    when it is FAILED and a time of posting exactly when it is POSTED; a
    QUEUED or POSTING job has neither. *)
Theorem error_and_postedAt_follow_the_status (evs : list Event) (i : nat) (job : Job) :
  schedules (world (run_events init evs)) !! i = Some job →
  (is_Some (j_error job) ↔ j_status job = FAILED)
  ∧ (is_Some (j_postedAt job) ↔ j_status job = POSTED).
Proof.
  intros Hjob.
  pose proof (run_events_well_marked evs init owns_init (Forall_nil_2 _)) as Hall.
  pose proof (Forall_lookup_1 _ _ _ _ Hall Hjob) as Hm. unfold well_marked in Hm.
  destruct (j_status job); destruct Hm as [He Hp]; rewrite ?He, ?Hp;
    split; split; try done; try by intros [? [=]].
Qed.

(** *** A run over jobs that are not to be started *)

(** A run that has come to its end gives the same actions and the same
    world whatever fuel it was given. *)
Lemma run_thread_Finished_unique clock k w th n1 n2 acts1 w1 acts2 w2 :
  run_thread n1 clock k w th = (acts1, w1, Finished) →
  run_thread n2 clock k w th = (acts2, w2, Finished) →
  acts1 = acts2 ∧ w1 = w2.
Proof.
  intros H1 H2.
  pose proof (run_thread_add n1 n2 clock k w th) as H12.
  pose proof (run_thread_add n2 n1 clock k w th) as H21.
  rewrite H1, run_thread_Finished in H12. rewrite H2, run_thread_Finished in H21.
  replace (n2 + n1) with (n1 + n2) in H21 by lia. rewrite H12 in H21.
  rewrite !app_nil_r in H21. by injection H21 as -> ->.
Qed.

(** Over jobs none of which is QUEUED and due, the run skips every job and
    stops, and the world is as before. *)
Lemma idle_run clock now : ∀ m i k w,
  length (schedules w) - i = m →
  (∀ j job, i ≤ j → schedules w !! j = Some job →
     ¬ (j_status job = QUEUED ∧ due job now = true)) →
  run_thread (S m) clock k w (Scan now i) = ((Skip <$> seq i m) ++ [Stop], w, Finished).
Proof.
  induction m as [ | m IH ]; intros i k w Hm Hidle.
  - assert (Hnone : schedules w !! i = None) by (apply lookup_ge_None; lia).
    cbn [run_thread tick_step]. by rewrite Hnone.
  - destruct (lookup_lt_is_Some_2 (schedules w) i) as [job Hjob]; [ lia | ].
    rewrite run_thread_S by done.
    assert (Hskip : tick_step (clock k) w (Scan now i) = (w, Scan now (S i), Skip i)).
    { cbn [tick_step]. rewrite Hjob. case_decide as Hq; [ done | ].
      destruct (due job now) eqn:Hd; [ | done ]. destruct (Hidle i job); [ lia | done | ].
      split; [ | done ]. by destruct (j_status job). }
    rewrite Hskip, (IH (S i) (S k) w); [ done | lia | ].
    intros j job' Hj. apply Hidle. lia.
Qed.

(** After a complete run at the time [now], a second complete run at the
    same time starts nothing and calls no platform: it skips every job and
    leaves the queue and the request log as the first run left them. *)
Theorem second_run_starts_nothing
    (clock clock' : nat -> string) (now : Z) (w w1 w2 : World)
    (n1 n2 : nat) (acts1 acts2 : list Action) :
  run_thread n1 clock 0 w (Scan now 0) = (acts1, w1, Finished) →
  run_thread n2 clock' 0 w1 (Scan now 0) = (acts2, w2, Finished) →
  w2 = w1 ∧ acts2 = (Skip <$> seq 0 (length (schedules w1))) ++ [Stop].
Proof.
  intros Hrun1 Hrun2.
  destruct (tick_completes clock now (length (schedules w) - 0) 0 0 w eq_refl)
    as (n & acts & w' & Hrun & Hlen & _ & _ & Hjobs).
  destruct (run_thread_Finished_unique _ _ _ _ _ _ _ _ _ _ Hrun1 Hrun) as [-> ->].
  assert (Hidle : ∀ j job, 0 ≤ j → schedules w' !! j = Some job →
                    ¬ (j_status job = QUEUED ∧ due job now = true)).
  { intros j job1 _ Hjob1.
    destruct (lookup_lt_is_Some_2 (schedules w) j) as [job Hjob].
    { rewrite <- Hlen. by eapply lookup_lt_Some. }
    destruct (Hjobs j job) as (_ & Hkeep & Hend); [ lia | done | ].
    destruct (decide (j_status job = QUEUED ∧ due job now = true)) as [ Hyes | Hno ].
    - destruct (Hend Hyes) as (job' & Hjob' & Hst). rewrite Hjob1 in Hjob'.
      injection Hjob' as <-. intros [Hq _]. rewrite Hq in Hst. by destruct Hst.
    - rewrite (Hkeep Hno) in Hjob1. by injection Hjob1 as <-. }
  pose proof (idle_run clock' now (length (schedules w') - 0) 0 0 w' eq_refl Hidle) as Hrun'.
  destruct (run_thread_Finished_unique _ _ _ _ _ _ _ _ _ _ Hrun2 Hrun') as [-> ->].
  by rewrite Nat.sub_0_r.
Qed.

(** *** The calls of one job *)




(** *** What a whole run does, job by job *)









(** *** Bulk scheduling *)

(** [/api/schedule/bulk] takes all items or none: with one item that does
    not parse the reply is 400 and nothing is queued; with all items valid
    there is one new QUEUED job per item, in the order of the items, after
    the jobs already there, with the item's platforms, text and time. *)
Theorem bulk_is_all_or_nothing
    (fs : list (string * json)) (items : list json) (rnd : nat -> string) (w : World) :
  field fs "items" = JArr items →
  (Exists (λ it, bulk_item_schema it = None) items →
     api_schedule_bulk (JObj fs) rnd w = (bad zod_message 400, w))
  ∧ (Forall (λ it, is_Some (bulk_item_schema it)) items →
     ∃ created,
       api_schedule_bulk (JObj fs) rnd w
         = (ok created, mkWorld (schedules w ++ created) (requests w))
       ∧ length created = length items
       ∧ ∀ k it, items !! k = Some it →
           ∃ platforms text whenISO,
             bulk_item_schema it = Some (platforms, text, whenISO)
             ∧ created !! k = Some (mkJob ("job_" +:+ rnd k) platforms text (Some whenISO)
                                          None QUEUED None None)).
Proof.
  intros Hitems. unfold api_schedule_bulk, bulk_schema, z_array. rewrite Hitems. split.
  - intros Hbad. apply mapM_None in Hbad. by rewrite Hbad.
  - intros Hall.
    destruct (mapM bulk_item_schema items) as [ parsed | ] eqn:Hparsed.
    2:{ apply mapM_None in Hparsed. apply Exists_exists in Hparsed as (it & Hin & Hnone).
        rewrite Forall_forall in Hall. specialize (Hall it Hin). rewrite Hnone in Hall.
        by destruct Hall. }
    eexists. split; [ reflexivity | ].
    apply mapM_Some in Hparsed.
    split; [ rewrite length_imap; symmetry; by eapply Forall2_length | ].
    intros k it Hk.
    destruct (Forall2_lookup_l _ _ _ _ _ Hparsed Hk) as ([[platforms text] whenISO] & Hpk & Hit).
    exists platforms, text, whenISO. split; [ done | ].
    by rewrite list_lookup_imap, Hpk.
Qed.

End Publisher.

(** *** Examples *)

Lemma fanout_stops_at_first_failure_witness :
  ∃ w',
    run_thread demo_dates offline 2 demo_clock 0 (mkWorld [two_platform_job] []) (Scan demo_now 0) =
      ([Enter 0; Call 0 "snapchat" (inl snapchat_error)], w', Scan demo_now 1)
    ∧ schedules w' !! 0 =
      Some (set_error (e_message snapchat_error) (set_status FAILED two_platform_job)).
Proof.
  destruct (fanout_stops_at_first_failure demo_dates offline demo_clock 0
              (mkWorld [two_platform_job] []) demo_now 0 two_platform_job
              "Snapchat" "constructor" snapchat_error)
    as (w' & Hrun & Hfailed & _).
  - reflexivity.
  - reflexivity.
  - reflexivity.
  - reflexivity.
  - vm_compute. reflexivity.
  - exists w'. split; [ exact Hrun | exact Hfailed ].
Defined.

(** C2 (counterexample): a job for [Snapchat; constructor]. The call for
    snapchat fails, the call for constructor would resolve, and the whole
    run makes the first call only: it ends with the job FAILED and no call
    for the second platform. *)
Lemma second_platform_is_not_attempted :
  (postToPlatform "snapchat" (input_of two_platform_job) offline []).1 = inl snapchat_error
  ∧ (postToPlatform "constructor" (input_of two_platform_job) offline []).1 =
    inr (RInput (input_of two_platform_job))
  ∧ run_thread demo_dates offline 10 demo_clock 0 (mkWorld [two_platform_job] [])
      (Scan demo_now 0) =
    ([Enter 0; Call 0 "snapchat" (inl snapchat_error); Stop],
     mkWorld [mkJob "job_a" ["Snapchat"; "constructor"] "hi" None None FAILED
                (Some "snapchat_posting_requires_marketing_api_and_creatives") None] [],
     Finished)
  ∧ Forall (λ a, ∀ o, a ≠ Call 0 "constructor" o)
      (run_thread demo_dates offline 10 demo_clock 0 (mkWorld [two_platform_job] [])
         (Scan demo_now 0)).1.1.
Proof.
  split_and!; try (vm_compute; reflexivity).
  vm_compute. repeat constructor; intros o; discriminate.
Qed.


Definition telegram_job : Job :=
  mkJob "job_t" ["Telegram"; "Discord"] "hi" None None QUEUED None None.

Definition telegram_body : json :=
  JObj [("platforms", JArr [JStr "Telegram"; JStr "Discord"]); ("text", JStr "hi")].

Lemma publisher_sends_no_request_witness :
  requests (world (run_events (λ _, true) demo_dates (replying (mkResponse 200 JNull JNull))
                     init
                     [Post telegram_body "t"; Cron demo_now; Run 0 "t1"; Run 0 "t2";
                      Run 0 "t3"])) = [].
Proof.
  apply (publisher_sends_no_request (λ _, true) demo_dates (replying (mkResponse 200 JNull JNull))
           init).
  repeat constructor.
Defined.


Lemma any_capitalisation_reaches_the_adapter_witness :
  toLowerCase "TikTok" = "tiktok"
  ∧ postToPlatform (toLowerCase "TikTok") (input_of telegram_job) offline []
    = tiktokPost (input_of telegram_job) offline []
  ∧ (tick_step demo_dates offline "t" (mkWorld [telegram_job] [])
       (Fanout demo_now 0 ["TikTok"])).2
    = Call 0 "tiktok" (tiktokPost (input_of telegram_job) offline []).1.
Proof.
  apply (any_capitalisation_reaches_the_adapter demo_dates offline "TikTok" "tiktok"
           tiktokPost "t"
           (mkWorld [telegram_job] []) demo_now 0 telegram_job []).
  - vm_compute. reflexivity.
  - cbn [capitalisation_of]. repeat split; first [ by left | by right ].
  - reflexivity.
Defined.

Lemma jobs_keep_their_payload_witness :
  ∃ job',
    schedules (world (run_events (λ _, true) demo_dates offline
                        (mkSys (mkWorld [telegram_job] []) [])
                        [Cron demo_now; Run 0 "t1"; Post telegram_body "u"; Run 0 "t2"]))
      !! 0 = Some job'
    ∧ same_payload telegram_job job'.
Proof.
  apply (jobs_keep_their_payload (λ _, true) demo_dates offline
           [Cron demo_now; Run 0 "t1"; Post telegram_body "u"; Run 0 "t2"]
           (mkSys (mkWorld [telegram_job] []) []) 0 telegram_job).
  reflexivity.
Defined.

Lemma error_and_postedAt_follow_the_status_witness :
  let failed := mkJob "job_t" ["Telegram"; "Discord"] "hi" None None FAILED
                  (Some "missing_TELEGRAM_BOT_TOKEN") None in
  (is_Some (j_error failed) ↔ j_status failed = FAILED)
  ∧ (is_Some (j_postedAt failed) ↔ j_status failed = POSTED).
Proof.
  apply (error_and_postedAt_follow_the_status (λ _, true) demo_dates offline
           [Post telegram_body "t"; Cron demo_now; Run 0 "t1"; Run 0 "t2"] 0).
  vm_compute. reflexivity.
Defined.

Lemma second_run_starts_nothing_witness :
  let w1 := mkWorld [mkJob "job_a" ["Snapchat"; "constructor"] "hi" None None FAILED
                       (Some "snapchat_posting_requires_marketing_api_and_creatives") None]
                    [] in
  w1 = w1 ∧ [Skip 0; Stop] = (Skip <$> seq 0 (length (schedules w1))) ++ [Stop].
Proof.
  apply (second_run_starts_nothing demo_dates offline demo_clock demo_clock demo_now
           (mkWorld [two_platform_job] []) _ _ 10 10
           [Enter 0; Call 0 "snapchat" (inl snapchat_error); Stop] [Skip 0; Stop]).
  - vm_compute. reflexivity.
  - vm_compute. reflexivity.
Defined.


Definition bulk_item (text : string) : json :=
  JObj [("platforms", JArr [JStr "telegram"]); ("text", JStr text);
        ("whenISO", JStr "2030-01-01T00:00:00.000Z")].

Lemma bulk_is_all_or_nothing_witness :
  let fs := [("items", JArr [bulk_item "a"; JObj [("text", JStr "b")]])] in
  api_schedule_bulk (JObj fs) (λ _, "r") (mkWorld [telegram_job] [])
    = (bad zod_message 400, mkWorld [telegram_job] []).
Proof.
  intros fs.
  apply (bulk_is_all_or_nothing fs [bulk_item "a"; JObj [("text", JStr "b")]] (λ _, "r")
           (mkWorld [telegram_job] [])).
  - reflexivity.
  - apply Exists_cons_tl, Exists_cons_hd. reflexivity.
Defined.

(** A run over four jobs: a date in the past, a date in the future, a job
    that is already POSTED, and a string that is not a date. *)
Example tick_over_four_jobs :
  run_thread demo_dates offline 20 demo_clock 0
    (mkWorld [ mkJob "job_a" ["telegram"] "a" (Some "2024-01-01T00:00:00.000Z") None QUEUED None None;
               mkJob "job_b" ["telegram"] "b" (Some "2030-01-01T00:00:00.000Z") None QUEUED None None;
               mkJob "job_c" ["telegram"] "c" None None POSTED None (Some "t");
               mkJob "job_d" ["telegram"] "d" (Some "tomorrow") None QUEUED None None ] [])
    (Scan demo_now 0) =
  ([ Enter 0; Call 0 "telegram" (inl (mkError "missing_TELEGRAM_BOT_TOKEN" (Some 400%Z)));
     Skip 1; Skip 2; Skip 3; Stop ],
   mkWorld [ mkJob "job_a" ["telegram"] "a" (Some "2024-01-01T00:00:00.000Z") None FAILED
               (Some "missing_TELEGRAM_BOT_TOKEN") None;
             mkJob "job_b" ["telegram"] "b" (Some "2030-01-01T00:00:00.000Z") None QUEUED None None;
             mkJob "job_c" ["telegram"] "c" None None POSTED None (Some "t");
             mkJob "job_d" ["telegram"] "d" (Some "tomorrow") None QUEUED None None ] [],
   Finished).
Proof. vm_compute. reflexivity. Qed.

(** Two overlapping runs: the second one finds the job POSTING and passes
    over it; the first one then finishes it. *)
Example overlapping_runs :
  let body := JObj [("platforms", JArr [JStr "constructor"]); ("text", JStr "hi")] in
  let evs := [Post body "a"; Cron demo_now; Run 0 "t1"; Cron demo_now; Run 1 "t2";
              Run 1 "t3"; Run 0 "t4"; Run 0 "t5"; Run 0 "t6"] in
  run_events (λ _, true) demo_dates offline init evs =
  mkSys (mkWorld [mkJob "job_a" ["constructor"] "hi" None None POSTED None (Some "t5")] [])
        [Finished; Finished]
  ∧ enters_POSTING (λ _, true) demo_dates offline 0 init evs = 1.
Proof. split; vm_compute; reflexivity. Qed.

End Scheduler.

(** ** server.js: monitoring *)

Module Monitoring.
Import JS Zod Express.

(** An element of [alerts]: the parsed event and the time it came in. *)
Record Alert := mkAlert {
  a_platform : string;
  a_level : string;
  a_code : string;
  a_message : string;
  a_ref : option string;
  a_ts : string
}.

(** [z.object({ platform:z.string(), level:z.enum(['info','warn','violation']),
      code:z.string(), message:z.string(), ref:z.string().optional() })] *)
Definition event_schema : Schema (string * string * string * string * option string) :=
  fun j =>
    match j with
    | JObj fs =>
        platform ← z_string (field fs "platform");
        level ← z_enum ["info"; "warn"; "violation"] (field fs "level");
        code ← z_string (field fs "code");
        msg ← z_string (field fs "message");
        ref ← z_optional z_string (field fs "ref");
        Some (platform, level, code, msg, ref)
    | _ => None
    end.

(** [app.post('/api/monitor/ingest', ...)]; [ts] is
    [new Date().toISOString()]. The reply [ok true] is [{ received:true }];
    [alerts.unshift(e)] puts the alert at the front. *)
Definition monitor_ingest (body : json) (ts : string) (alerts : list Alert)
    : Reply bool * list Alert :=
  match event_schema body with
  | None => (bad zod_message 400, alerts)
  | Some (platform, level, code, msg, ref) =>
      (ok true, mkAlert platform level code msg ref ts :: alerts)
  end.


(** A sequence of ingest requests, each with its body and its time. *)
Definition ingest_all (reqs : list (json * string)) (alerts : list Alert) : list Alert :=
  foldl (λ alerts '(body, ts), (monitor_ingest body ts alerts).2) alerts reqs.


Definition demo_event (code : string) : json :=
  JObj [("platform", JStr "instagram"); ("level", JStr "warn"); ("code", JStr code);
        ("message", JStr "caption flagged")].





(** One valid event and one with a level that is not in the list. *)
Example ingest_two_events :
  ingest_all [(demo_event "C1", "t1");
              (JObj [("platform", JStr "x"); ("level", JStr "error"); ("code", JStr "C2");
                     ("message", JStr "m")], "t2");
              (demo_event "C3", "t3")] [] =
  [mkAlert "instagram" "warn" "C3" "caption flagged" None "t3";
   mkAlert "instagram" "warn" "C1" "caption flagged" None "t1"].
Proof. vm_compute. reflexivity. Qed.

End Monitoring.

(** ** server.js: the content calendar *)

Module Calendar.
Import JS Zod Express.

(** An element of [items]. *)
Record Item := mkItem {
  day : nat;
  idea : string;
  checks : list string
}.

(** [z.number().int().min(1).max(30).default(14)] *)
Definition z_days : Schema Z :=
  z_default 14%Z (fun j =>
    match j with
    | JNum q =>
        let n := QArith_base.Qnum q in
        let d := Z.pos (QArith_base.Qden q) in
        if decide (n `mod` d = 0 ∧ 1 ≤ n `div` d ∧ n `div` d ≤ 30)%Z
        then Some (n `div` d)%Z else None
    | _ => None
    end).

(** [z.object({ platforms:z.array(z.string()), days: ... })] *)
Definition calendar_schema : Schema (list string * Z) := fun j =>
  match j with
  | JObj fs =>
      platforms ← z_array z_string (field fs "platforms");
      days ← z_days (field fs "days");
      Some (platforms, days)
  | _ => None
  end.

(** A number of the calendar in a template string. *)
Definition decimal (n : nat) : string := NilEmpty.string_of_uint (Nat.to_uint n).

(** [({ day:i+1, idea:`Hook ${i+1}: Proof > promises.`, checks:[...] })] *)
Definition item_at (i : nat) : Item :=
  mkItem (i + 1) ("Hook " +:+ decimal (i + 1) +:+ ": Proof > promises.")
         ["no banned words"; "disclose #ad if needed"; "no targeted attributes"].

(** [app.post('/api/automation/calendar', ...)]; [startISO] is
    [new Date(Date.now()).toISOString()]. The reply is [startISO] and
    [Array.from({length: days}).map((_,i) => ...)]. *)
Definition api_calendar (body : json) (startISO : string) : Reply (string * list Item) :=
  match calendar_schema body with
  | None => bad zod_message 400
  | Some (_platforms, days) => ok (startISO, item_at <$> seq 0 (Z.to_nat days))
  end.

Lemma z_days_range j d : z_days j = Some d → (1 ≤ d ≤ 30)%Z.
Proof.
  unfold z_days, z_default. destruct j as [ | | b | q | s | l | fs ]; try done.
  - intros [= <-]. lia.
  - cbv zeta. case_decide as Hq; [ | done ]. intros [= <-]. lia.
Qed.

(** Every calendar has between 1 and 30 items, one per day, numbered from 1
    in the order of the days, and each with the three checks; any other
    reply is a 400. *)
Theorem calendar_has_one_item_per_day (body : json) (startISO : string) :
  match api_calendar body startISO with
  | ok (start, items) =>
      start = startISO
      ∧ 1 ≤ length items ≤ 30
      ∧ ∀ k item, items !! k = Some item →
          day item = k + 1
          ∧ idea item = "Hook " +:+ decimal (k + 1) +:+ ": Proof > promises."
          ∧ length (checks item) = 3
  | bad _ code => code = 400%Z
  end.
Proof.
  unfold api_calendar, calendar_schema.
  destruct body as [ | | b | q | s | l | fs ]; try done.
  destruct (z_array z_string (field fs "platforms")) as [ platforms | ]; [ | done ].
  cbn [mbind option_bind].
  destruct (z_days (field fs "days")) as [ days | ] eqn:Hdays; [ | done ].
  apply z_days_range in Hdays. cbn [mbind option_bind]. split_and!; try done.
  - rewrite length_fmap, length_seq. lia.
  - rewrite length_fmap, length_seq. lia.
  - intros k item Hk. rewrite list_lookup_fmap in Hk.
    destruct (seq 0 (Z.to_nat days) !! k) as [ i | ] eqn:Hi; [ | done ].
    apply lookup_seq in Hi as [-> _]. by injection Hk as <-.
Qed.

(** The length of the calendar is [days]: 14 when the body has no [days],
    [d] for an integer [d] from 1 to 30, and a 400 for any other integer.
    The platforms must be a list of strings, and the items do not depend on
    them. *)
Theorem calendar_length_is_days
    (fs : list (string * json)) (platforms : list string) (startISO : string) :
  z_array z_string (field fs "platforms") = Some platforms →
  (field fs "days" = JUndef →
     api_calendar (JObj fs) startISO = ok (startISO, item_at <$> seq 0 14))
  ∧ (∀ d, field fs "days" = JInt d →
       if decide (1 ≤ d ≤ 30)%Z
       then api_calendar (JObj fs) startISO = ok (startISO, item_at <$> seq 0 (Z.to_nat d))
       else api_calendar (JObj fs) startISO = bad zod_message 400).
Proof.
  intros Hp. unfold api_calendar, calendar_schema. rewrite Hp. cbn [mbind option_bind].
  split.
  - intros ->. reflexivity.
  - intros d ->. unfold z_days, z_default, JInt. cbv zeta. cbn [QArith_base.Qnum QArith_base.Qden].
    rewrite Z.mod_1_r, Z.div_1_r.
    destruct (decide (1 ≤ d ≤ 30)%Z) as [ Hd | Hd ].
    + rewrite decide_True by (split; [ done | lia ]). reflexivity.
    + rewrite decide_False by (intros (_ & ? & ?); lia). reflexivity.
Qed.

Lemma calendar_length_is_days_witness :
  let fs := [("platforms", JArr [JStr "instagram"]); ("days", JInt 3)] in
  (field fs "days" = JUndef →
     api_calendar (JObj fs) "s" = ok ("s", item_at <$> seq 0 14))
  ∧ (∀ d, field fs "days" = JInt d →
       if decide (1 ≤ d ≤ 30)%Z
       then api_calendar (JObj fs) "s" = ok ("s", item_at <$> seq 0 (Z.to_nat d))
       else api_calendar (JObj fs) "s" = bad zod_message 400).
Proof.
  intros fs. apply (calendar_length_is_days fs ["instagram"] "s"). reflexivity.
Defined.

(** A calendar of three days. *)
Example calendar_of_three_days :
  api_calendar (JObj [("platforms", JArr [JStr "instagram"]); ("days", JInt 3)]) "s" =
  ok ("s",
      [mkItem 1 "Hook 1: Proof > promises."
         ["no banned words"; "disclose #ad if needed"; "no targeted attributes"];
       mkItem 2 "Hook 2: Proof > promises."
         ["no banned words"; "disclose #ad if needed"; "no targeted attributes"];
       mkItem 3 "Hook 3: Proof > promises."
         ["no banned words"; "disclose #ad if needed"; "no targeted attributes"]]).
Proof. vm_compute. reflexivity. Qed.

End Calendar.

(** ** server.js: the adapters route *)

Module Routes.
Import JS Express Adapters.

(** [e.status||500] *)
Definition status_or_500 (e : Error) : Z :=
  match e_status e with
  | Some c => if Z.eqb c 0 then 500%Z else c
  | None => 500%Z
  end.

(** [app.post('/api/adapters/:platform/post', ...)]:
    [try{ const data = await postToPlatform(req.params.platform, req.body); ok(res,{ data }) }
     catch(e){ bad(res, e.message, e.status||500) }], for a body whose
    fields are strings. *)
Definition api_adapters_post (platform : string) (input : NormalizedPost)
    (net : Net) (log : list Request) : Reply Result * list Request :=
  match postToPlatform platform input net log with
  | (inr data, log') => (ok data, log')
  | (inl e, log') => (bad (message (e_message e)) (status_or_500 e), log')
  end.

(** Where the outcome of a registered adapter comes from: a result after a
    request, or an error that is the adapter's own (status 400 or 501), a
    TypeError (no status), or the error of the network. *)
Definition outcome_ok (net : Net) (log : list Request)
    (out : (Error + Result) * list Request) : Prop :=
  match out with
  | (inr _, log') => ∃ q more, log' = log ++ q :: more
  | (inl e, _) =>
      e_status e = Some 400%Z ∨ e_status e = Some 501%Z ∨ e_status e = None
      ∨ ∃ l q, net l q = inl e
  end.

Lemma adapter_outcome p fn input net log :
  adapters !! p = Some fn → outcome_ok net log (fn input net log).
Proof.
  intros Hfn. apply adapters_lookup in Hfn.
  table_cases Hfn;
    match goal with |- outcome_ok _ _ (?f _ _ _) => unfold f end;
    adapter_branches net; unfold outcome_ok; cbn [e_status type_error];
    first [ by left
          | by right; left
          | by right; right; left
          | right; right; right; eexists _, _; eassumption
          | eexists _, _; rewrite <- ?app_assoc; cbn [app]; reflexivity ].
Qed.

(** Close a goal that puts a value in a list that holds it. *)
Ltac listed := repeat first [ apply list_elem_of_here | apply list_elem_of_further ].

(** The adapters route answers a failure with a code that is never 0: the
    adapter's 400 or 501, 404 for a platform that is not known, 500 for an
    error without a status, or the status of an error of the network. It
    answers a success only after a request was sent to the platform, or for
    the names [constructor] and [toString], which are no platforms and send
    nothing. *)
Theorem adapters_route_reply
    (platform : string) (input : NormalizedPost) (net : Net) (log : list Request) :
  match api_adapters_post platform input net log with
  | (ok _, log') =>
      (is_Some (adapters !! platform) ∧ ∃ q more, log' = log ++ q :: more)
      ∨ (platform ∈ ["constructor"; "toString"] ∧ log' = log)
  | (bad _ code, _) =>
      code ≠ 0%Z
      ∧ (code ∈ [400; 404; 500; 501]%Z
         ∨ ∃ l q e, net l q = inl e ∧ e_status e = Some code)
  end.
Proof.
  unfold api_adapters_post, postToPlatform, adapters_get.
  destruct (adapters !! platform) as [ fn | ] eqn:Hfn.
  - pose proof (adapter_outcome platform fn input net log Hfn) as Hout.
    destruct (fn input net log) as [ [ e | data ] log' ]; unfold outcome_ok in Hout.
    + unfold status_or_500.
      destruct Hout as [ -> | [ -> | [ -> | (l & q & Hnet) ] ] ];
        [ split; [ done | left; listed ] .. | ].
      destruct (e_status e) as [ c | ] eqn:Hc; [ | split; [ done | left; listed ] ].
      destruct (Z.eqb_spec c 0) as [ -> | Hne ]; [ split; [ done | left; listed ] | ].
      split; [ done | ]. right. by exists l, q, e.
    + left. split; [ by eexists | done ].
  - destruct (object_prototype !! platform) as [ fn | ] eqn:Hproto.
    + apply object_prototype_lookup in Hproto.
      table_cases Hproto;
        unfold no_receiver, toLocaleString_no_receiver, not_callable, throw, ret, type_error,
          status_or_500;
        cbv beta iota; cbn [e_status];
        first [ right; split; [ listed | reflexivity ]
              | split; [ done | left; listed ] ].
    + unfold err, throw, status_or_500. cbv beta iota. cbn [e_status Z.eqb].
      split; [ done | left; listed ].
Qed.

End Routes.
